(** * blur_faces/app.py: the face-anonymising Lambda handler

    A shallow embedding of [src/blur_faces/app.py]: the two region
    anonymisers ([anonymize_face_simple], [anonymize_face_pixelate]), the
    per-record pipeline of [lambda_handler] and [add_failed].

    Conventions of the embedding.
    - A Python exception is a value of [exn]; a computation that may raise
      returns [result A].
    - An image (a NumPy array of shape (h, w, 3), dtype uint8) is the list
      of its rows, each row the list of its (B, G, R) pixels.  A basic slice
      [image[y1:y2, x1:x2]] is a NumPy *view*: it shares the buffer of the
      array it was taken from.  A view is therefore a window ([view]) on a
      buffer, and the functions that draw into an array take the buffer and
      the window and return the buffer.
    - Python floats are idealised as rationals ([Q]): [int(x)] truncates
      towards zero ([py_int]), and the rounding of IEEE doubles is not
      modelled. *)

From Stdlib Require Import ZArith QArith Ascii String.
From stdpp Require Import base option list strings gmap.

Local Open Scope Z_scope.

(** ** Exceptions and results *)

Inductive exn : Type :=
| KeyError (k : string)
| UnboundLocalError (var : string)   (* a subclass of NameError *)
| AttributeError (msg : string)
| ZeroDivisionError
| ValueError
| cv2_error                          (* cv2.error *)
| ClientError                        (* botocore.exceptions.ClientError *)
| AccessDeniedException              (* rekognition.exceptions, subclasses of ClientError *)
| InvalidS3ObjectException
| S3UploadFailedError                (* boto3.exceptions *)
| OtherException (name : string).

Inductive result (A : Type) : Type :=
| Ok (a : A)
| Raise (e : exn).
Arguments Ok {A} a.
Arguments Raise {A} e.

Definition bind {A B} (r : result A) (k : A -> result B) : result B :=
  match r with
  | Ok a => k a
  | Raise e => Raise e
  end.

Notation "'do' x <- r ; k" := (bind r (fun x => k))
  (at level 10, x pattern, r at level 100, k at level 200).

(** [isinstance(e, NameError)] and [isinstance(e, ClientError)]. *)
Definition is_NameError (e : exn) : bool :=
  match e with UnboundLocalError _ => true | _ => false end.

Definition is_ClientError (e : exn) : bool :=
  match e with
  | ClientError | AccessDeniedException | InvalidS3ObjectException => true
  | _ => false
  end.

(** ** Numbers *)

(** [int(x)] on a float: truncation towards zero. *)
Definition py_int (x : Q) : Z := Z.quot (Qnum x) (Zpos (Qden x)).

(** ** Images, pixels and views *)

Definition pixel : Type := Z * Z * Z.            (* (B, G, R), each 0..255 *)
Abbreviation ndarray := (list (list pixel)).      (* rows of pixels *)

Definition img_rows (img : ndarray) : nat := length img.
Definition img_cols (img : ndarray) : nat := from_option length 0%nat (head img).

(** [img[y][x]], when the pixel exists. *)
Definition px (img : ndarray) (y x : nat) : option pixel :=
  img !! y ≫= (.!! x).

(** A window on a buffer: rows [v_top, v_top + v_rows), columns
    [v_left, v_left + v_cols). *)
Record view : Type := View
  { v_top : nat; v_left : nat; v_rows : nat; v_cols : nat }.

Definition whole (img : ndarray) : view :=
  View 0 0 (img_rows img) (img_cols img).

Definition in_view (v : view) (y x : nat) : bool :=
  (v_top v <=? y)%nat && (y <? v_top v + v_rows v)%nat &&
  (v_left v <=? x)%nat && (x <? v_left v + v_cols v)%nat.

(** The bound of a slice [a[i:j]] on an axis of length [n]
    (Python's [slice.indices]): a negative bound counts from the end, and
    the result is clamped to [0, n]. *)
Definition slice_index (n : nat) (i : Z) : nat :=
  Z.to_nat (Z.min (Z.max (if i <? 0 then i + Z.of_nat n else i) 0) (Z.of_nat n)).

(** [a[y1:y2, x1:x2]] for the array seen through [v]: again a view. *)
Definition subview (v : view) (y1 y2 x1 x2 : Z) : view :=
  let ys := slice_index (v_rows v) y1 in
  let ye := slice_index (v_rows v) y2 in
  let xs := slice_index (v_cols v) x1 in
  let xe := slice_index (v_cols v) x2 in
  View (v_top v + ys) (v_left v + xs) (ye - ys) (xe - xs).

Definition slice {A} (start len : nat) (l : list A) : list A :=
  take len (drop start l).

(** The contents of a view, as an array of its own. *)
Definition view_data (buf : ndarray) (v : view) : ndarray :=
  map (slice (v_left v) (v_cols v)) (slice (v_top v) (v_rows v) buf).

(** Overwrite the pixels of rows [top, bottom) and columns [left, right)
    that exist in the buffer. *)
Definition fill_rect (buf : ndarray) (top bottom left right : nat) (c : pixel) : ndarray :=
  imap (fun y row =>
    if (top <=? y)%nat && (y <? bottom)%nat
    then imap (fun x p => if (left <=? x)%nat && (x <? right)%nat then c else p) row
    else row) buf.

Definition same_shape (v : view) (data : ndarray) : bool :=
  (length data =? v_rows v)%nat && forallb (fun row => (length row =? v_cols v)%nat) data.

(** [a[...] = data] for the view [v] of [buf], [data] of the view's shape
    (NumPy raises ValueError for a shape that does not fit). *)
Definition assign_view (buf : ndarray) (v : view) (data : ndarray) : result ndarray :=
  if same_shape v data then
    Ok (imap (fun y row =>
          imap (fun x p =>
            if in_view v y x
            then default p (px data (y - v_top v) (x - v_left v))
            else p) row) buf)
  else Raise ValueError.

(** ** OpenCV and NumPy primitives

    These are library functions, modelled from their documented behaviour. *)

(** [cv2.rectangle(img, pt1, pt2, color, -1)]: the filled rectangle whose
    opposite corners are [pt1] and [pt2], BOTH corners included, clipped to
    the array it is drawn into.  Points are (x, y); the handler only passes
    non-negative coordinates with pt1 <= pt2. *)
Definition cv2_rectangle (buf : ndarray) (v : view) (pt1 pt2 : nat * nat) (color : pixel) : ndarray :=
  let '(x1, y1) := pt1 in
  let '(x2, y2) := pt2 in
  fill_rect buf
    (v_top v + y1) (v_top v + Nat.min (S y2) (v_rows v))
    (v_left v + x1) (v_left v + Nat.min (S x2) (v_cols v))
    color.

Definition chan_sum (f : pixel -> Z) (ps : list pixel) : Z :=
  foldr (fun p acc => f p + acc) 0 ps.

Definition chan_mean (f : pixel -> Z) (ps : list pixel) : Q :=
  match ps with
  | [] => 0%Q
  | _ => Qmake (chan_sum f ps) (Pos.of_nat (length ps))
  end.

(** [cv2.mean(roi)[:3]]: the mean of each channel over the pixels of the
    array.  For an array with no pixel OpenCV returns 0 in every channel
    (the sum is scaled by 1/n when n is not 0, and by 0 otherwise). *)
Definition cv2_mean (buf : ndarray) (roi : view) : Q * Q * Q :=
  let ps := concat (view_data buf roi) in
  (chan_mean (fun p => p.1.1) ps, chan_mean (fun p => p.1.2) ps, chan_mean (fun p => p.2) ps).

(** [np.linspace(0, stop, blocks + 1, dtype="int")]: the [blocks + 1] evenly
    spaced values from 0 to [stop], rounded down. *)
Definition linspace_int (stop blocks : nat) : list nat :=
  map (fun k => (k * stop / blocks)%nat) (seq 0 (S blocks)).

(** The weights of the Gaussian convolution are floating point and are left
    abstract: [conv src kW kH y x] is the blurred pixel at row [y], column
    [x]. *)
Definition convolution : Type := ndarray -> Z -> Z -> nat -> nat -> pixel.

Definition valid_ksize (k : Z) : bool := (0 <? k) && (k mod 2 =? 1).

(** [cv2.GaussianBlur(src, (kW, kH), 0)], as OpenCV 4 runs it:
    - an empty source is refused (cv2.error);
    - for a source of one row the kernel height is replaced by 1, for a
      source of one column the kernel width is replaced by 1;
    - with the kernel (1, 1) the source is copied;
    - otherwise both kernel dimensions must be positive and odd (the
      standard deviation is 0, so no size is derived from it), or cv2.error
      is raised; the result has the size of [src]. *)
Definition cv2_GaussianBlur (conv : convolution) (src : ndarray) (ksize : Z * Z) : result ndarray :=
  let '(kW, kH) := ksize in
  if (img_rows src =? 0)%nat || (img_cols src =? 0)%nat then Raise cv2_error
  else
    let kH := if (img_rows src =? 1)%nat then 1 else kH in
    let kW := if (img_cols src =? 1)%nat then 1 else kW in
    if (kW =? 1) && (kH =? 1) then Ok src
    else if valid_ksize kW && valid_ksize kH
    then Ok (imap (fun y row => imap (fun x _ => conv src kW kH y x) row) src)
    else Raise cv2_error.

(** ** anonymize_face_simple *)

(** Lines 40-49: the kernel size for one dimension [d] of the region. *)
Definition kernel_raw (d : nat) (factor : Q) : Z :=
  py_int (inject_Z (Z.of_nat d) / factor).

Definition kernel_odd (k : Z) : Z :=
  if k mod 2 =? 0 then k - 1 else k.

Definition blur_kernel (h w : nat) (factor : Q) : Z * Z :=
  (kernel_odd (kernel_raw w factor), kernel_odd (kernel_raw h factor)).

(** The array [image] is the view [image] of the buffer [buf]; it is only
    read, and the blurred region is a new array. *)
Definition anonymize_face_simple (conv : convolution) (buf : ndarray) (image : view)
    (factor : Q) : result ndarray :=
  let h := v_rows image in
  let w := v_cols image in
  if Qeq_bool factor 0 then Raise ZeroDivisionError
  else cv2_GaussianBlur conv (view_data buf image) (blur_kernel h w factor).

(** ** anonymize_face_pixelate *)

(** Lines 90-91: the region of interest [image[startY:endY, startX:endX]]
    is a view of the array, and (B, G, R) its truncated mean. *)
Definition block_color (buf : ndarray) (image : view)
    (startX startY endX endY : nat) : pixel :=
  let roi := subview image (Z.of_nat startY) (Z.of_nat endY)
                           (Z.of_nat startX) (Z.of_nat endX) in
  let '(B, G, R) := cv2_mean buf roi in
  (py_int B, py_int G, py_int R).

(** Lines 82-93: one block of the grid; the rectangle is drawn into the
    array itself. *)
Definition pixelate_cell (buf : ndarray) (image : view)
    (startX startY endX endY : nat) : ndarray :=
  cv2_rectangle buf image (startX, startY) (endX, endY)
    (block_color buf image startX startY endX endY).

(** The array [image] is the view [image] of the buffer [buf]; it is
    modified in place and returned, so the result is the buffer. *)
Definition anonymize_face_pixelate (buf : ndarray) (image : view) (blocks : nat) : ndarray :=
  let h := v_rows image in
  let w := v_cols image in
  let xSteps := linspace_int w blocks in
  let ySteps := linspace_int h blocks in
  foldl (fun buf i =>
    foldl (fun buf j =>
      pixelate_cell buf image
        (nth (j - 1) xSteps 0%nat) (nth (i - 1) ySteps 0%nat)
        (nth j xSteps 0%nat) (nth i ySteps 0%nat))
      buf (seq 1 (length xSteps - 1)))
    buf (seq 1 (length ySteps - 1)).

(** ** Strings

    A Python [str] is modelled by the string of its UTF-8 bytes. *)

Local Open Scope string_scope.

Fixpoint occurs (c : ascii) (s : string) : bool :=
  match s with
  | EmptyString => false
  | String a r => if Ascii.eqb a c then true else occurs c r
  end.

(** [s.split(sep)[-1]] for a one-character separator: what follows the last
    [sep], the whole string when there is none. *)
Fixpoint split_last (sep : ascii) (s : string) : string :=
  match s with
  | EmptyString => EmptyString
  | String a r =>
      if occurs sep r then split_last sep r
      else if Ascii.eqb a sep then r else s
  end.

Definition hex_value (c : ascii) : option N :=
  let n := N_of_ascii c in
  if (48 <=? n)%N && (n <=? 57)%N then Some (n - 48)%N        (* 0-9 *)
  else if (65 <=? n)%N && (n <=? 70)%N then Some (n - 55)%N   (* A-F *)
  else if (97 <=? n)%N && (n <=? 102)%N then Some (n - 87)%N  (* a-f *)
  else None.

(** [urllib.parse.unquote]: every [%XX] with two hexadecimal digits becomes
    the byte XX; a [%] not followed by two hexadecimal digits is kept.  (The
    replacement of ill-formed UTF-8 by U+FFFD is not modelled.) *)
Fixpoint unquote (s : string) : string :=
  match s with
  | EmptyString => EmptyString
  | String c rest =>
      if Ascii.eqb c "%" then
        match rest with
        | String a (String b r) =>
            match hex_value a, hex_value b with
            | Some h, Some l => String (ascii_of_N (16 * h + l)) (unquote r)
            | _, _ => String c (unquote rest)
            end
        | _ => String c (unquote rest)
        end
      else String c (unquote rest)
  end.

Fixpoint replace_plus (s : string) : string :=
  match s with
  | EmptyString => EmptyString
  | String c r => String (if Ascii.eqb c "+" then " "%char else c) (replace_plus r)
  end.

(** [urllib.parse.unquote_plus]. *)
Definition unquote_plus (s : string) : string := unquote (replace_plus s).

(** ** The event, the collaborators and the state of the handler *)

(** A notification record is a nested dict; a field that is [None] is a key
    that is missing from its dict. *)
Record s3_bucket : Type := { bucket_name : option string }.
Record s3_object : Type := { object_key : option string; object_size : option Z }.
Record s3_entity : Type :=
  { entity_bucket : option s3_bucket; entity_object : option s3_object }.
Record record : Type := { record_s3 : option s3_entity }.
Record event : Type := { Records : option (list record) }.

(** [d[k]]: KeyError when the key is missing. *)
Definition getitem {A} (k : string) (field : option A) : result A :=
  match field with
  | Some a => Ok a
  | None => Raise (KeyError k)
  end.

(** A bounding box of the detector's response: fractions of the image size. *)
Record BoundingBox : Type := { Left : Q; Top : Q; Width : Q; Height : Q }.

(** A local file is represented by what [cv2.imread] makes of it: [None]
    when its bytes do not decode to an image. *)
Definition file : Type := option ndarray.

(** The environment of the handler: configuration, the OpenCV build and the
    S3 and Rekognition clients. *)
Record world : Type := {
  output_bucket : string;                                  (* os.environ['OUTPUT_BUCKET'] *)
  BLUR_TYPE : option string;                               (* os.environ['BLUR_TYPE'] *)
  cv2_version : string;
  conv : convolution;
  download_file : string -> string -> result file;         (* bucket, key *)
  detect_faces : string -> string -> result (list BoundingBox);
  upload_file : string -> string -> string -> result unit  (* local file, bucket, key *)
}.

Record failed_record : Type :=
  { f_bucket : string; f_key : string; f_error_message : string }.
Record successful_record : Type := { s_bucket : string; s_key : string }.

(** The state threaded through the loop of [lambda_handler]: the local
    variables that survive an iteration ([None] is a variable that is not
    bound yet), the two result lists and the files under /tmp. *)
Record state : Type := {
  bucket : option string;
  key : option string;
  failed_records : list failed_record;
  successful_records : list successful_record;
  tmp : gmap string file
}.

Definition read_local (name : string) (var : option string) : result string :=
  match var with
  | Some v => Ok v
  | None => Raise (UnboundLocalError name)
  end.

(** Lines 210-215. *)
Definition add_failed (bucket error_message : string)
    (failed_records : list failed_record) (key : string) : list failed_record :=
  failed_records ++
  [ {| f_bucket := bucket; f_key := key; f_error_message := error_message |} ].

Definition msg_no_event : string :=
  "Lambda invoked without S3 event data. Event needs to reference a S3 bucket and object key.".
Definition msg_too_large : string :=
  "Maximum image size stored as an Amazon S3 object is limited to 15 MB for Amazon Rekognition.".
Definition msg_file_type : string :=
  "Unsupported file type. Amazon Rekognition Image currently supports the JPEG and PNG image formats.".
Definition msg_get_object : string :=
  "Lambda role does not have permission to call GetObject for the input S3 bucket, or object does not exist.".
Definition msg_detect_denied : string :=
  "Lambda role does not have permission to call DetectFaces in Amazon Rekognition.".
Definition msg_detect_invalid : string :=
  "Unable to get object metadata from S3. Check object key, region and/or access permissions for input S3 bucket.".
Definition msg_put_object : string :=
  "Lambda role does not have permission to call PutObject for the output S3 bucket.".

(** [add_failed(bucket, error_message, failed_records, key); continue]: the
    two local variables are read when the call is evaluated, [bucket]
    first. *)
Definition fail_record (st : state) (error_message : string) : result state :=
  do b <- read_local "bucket" (bucket st);
  do k <- read_local "key" (key st);
  Ok {| bucket := bucket st; key := key st;
        failed_records := add_failed b error_message (failed_records st) k;
        successful_records := successful_records st;
        tmp := tmp st |}.

Definition set_bucket (st : state) (b : string) : state :=
  {| bucket := Some b; key := key st; failed_records := failed_records st;
     successful_records := successful_records st; tmp := tmp st |}.

Definition set_key (st : state) (k : string) : state :=
  {| bucket := bucket st; key := Some k; failed_records := failed_records st;
     successful_records := successful_records st; tmp := tmp st |}.

Definition set_tmp (st : state) (fs : gmap string file) : state :=
  {| bucket := bucket st; key := key st; failed_records := failed_records st;
     successful_records := successful_records st; tmp := fs |}.

Definition add_successful (st : state) (b k : string) : state :=
  {| bucket := bucket st; key := key st; failed_records := failed_records st;
     successful_records := successful_records st ++ [ {| s_bucket := b; s_key := k |} ];
     tmp := tmp st |}.

(** ** lambda_handler *)

(** Lines 161-164: (x1, y1, x2, y2). *)
Definition bounding_rect (image_width image_height : Z) (detected_face : BoundingBox)
  : Z * Z * Z * Z :=
  let x1 := py_int (Left detected_face * inject_Z image_width) in
  let x2 := x1 + py_int (Width detected_face * inject_Z image_width) in
  let y1 := py_int (Top detected_face * inject_Z image_height) in
  let y2 := y1 + py_int (Height detected_face * inject_Z image_height) in
  (x1, y1, x2, y2).

(** Line 167: [image[y1:y2, x1:x2]]. *)
Definition face_region (image : ndarray) (detected_face : BoundingBox) : view :=
  let image_height := Z.of_nat (img_rows image) in
  let image_width := Z.of_nat (img_cols image) in
  let '(x1, y1, x2, y2) := bounding_rect image_width image_height detected_face in
  subview (whole image) y1 y2 x1 x2.

(** Lines 160-176, the body of the loop over the detected faces.  [face] is
    a view of [image]; the pixelation draws into it, the blur returns a new
    array, and in both cases line 176 assigns the result to the same
    rectangle of [image]. *)
Definition anonymize_detected_face (W : world) (image : ndarray)
    (detected_face : BoundingBox) : result ndarray :=
  let face := face_region image detected_face in
  do blur_type <- getitem "BLUR_TYPE" (BLUR_TYPE W);
  if String.eqb blur_type "pixelate" then
    let image := anonymize_face_pixelate image face 10 in
    assign_view image face (view_data image face)
  else
    do blurred <- anonymize_face_simple (conv W) image face 3;
    assign_view image face blurred.

(** Lines 158-176. *)
Fixpoint anonymize_faces (W : world) (image : ndarray)
    (FaceDetails : list BoundingBox) : result ndarray :=
  match FaceDetails with
  | [] => Ok image
  | detected_face :: rest =>
      do image <- anonymize_detected_face W image detected_face;
      anonymize_faces W image rest
  end.

Definition supported_extension (local_filename : string) : bool :=
  existsb (String.eqb (split_last "." local_filename)) ["png"; "jpeg"; "jpg"].

(** Lines 130-196: the record has been parsed, [bucket] and [key] are bound
    to [b] and [k]. *)
Definition process_parsed (W : world) (st : state) (b k : string) (size : Z)
  : result state :=
  let filename := split_last "/" k in
  let local_filename := "/tmp/" ++ filename in
  if (15728640 <? size)%Z then fail_record st msg_too_large
  else if negb (supported_extension local_filename) then fail_record st msg_file_type
  else
    match download_file W b k with
    | Raise e => if is_ClientError e then fail_record st msg_get_object else Raise e
    | Ok content =>
        let st := set_tmp st (<[local_filename := content]> (tmp st)) in
        (* image = cv2.imread(local_filename); image.shape *)
        match mjoin (tmp st !! local_filename) with
        | None => Raise (AttributeError "'NoneType' object has no attribute 'shape'")
        | Some image =>
            match detect_faces W b k with
            | Raise AccessDeniedException => fail_record st msg_detect_denied
            | Raise InvalidS3ObjectException => fail_record st msg_detect_invalid
            | Raise e => Raise e
            | Ok FaceDetails =>
                do image <- anonymize_faces W image FaceDetails;
                (* cv2.imwrite(local_filename, image) *)
                let st := set_tmp st (<[local_filename := Some image]> (tmp st)) in
                match upload_file W local_filename (output_bucket W) k with
                | Raise S3UploadFailedError => fail_record st msg_put_object
                | Raise e => Raise e
                | Ok _ =>
                    (* if os.path.exists(local_filename): os.remove(local_filename) *)
                    let st :=
                      if decide (is_Some (tmp st !! local_filename))
                      then set_tmp st (delete local_filename (tmp st))
                      else st in
                    Ok (add_successful st b k)
                end
            end
        end
    end.

(** The three lookups of lines 108-110. *)
Definition lookup_bucket (r : record) : result string :=
  do s3 <- getitem "s3" (record_s3 r);
  do bkt <- getitem "bucket" (entity_bucket s3);
  getitem "name" (bucket_name bkt).

Definition lookup_key (r : record) : result string :=
  do s3 <- getitem "s3" (record_s3 r);
  do obj <- getitem "object" (entity_object s3);
  getitem "key" (object_key obj).

Definition lookup_size (r : record) : result Z :=
  do s3 <- getitem "s3" (record_s3 r);
  do obj <- getitem "object" (entity_object s3);
  getitem "size" (object_size obj).

(** Lines 105-196, one iteration of the loop.  The assignments of the
    [try] block take effect one by one, so a KeyError leaves the variables
    assigned before it bound to the values of this record, and the others
    as the earlier iterations left them. *)
Definition process_record (W : world) (st : state) (r : record) : result state :=
  match lookup_bucket r with
  | Raise _ => fail_record st msg_no_event
  | Ok b =>
      let st := set_bucket st b in
      match lookup_key r with
      | Raise _ => fail_record st msg_no_event
      | Ok quoted =>
          let k := unquote_plus quoted in
          let st := set_key st k in
          match lookup_size r with
          | Raise _ => fail_record st msg_no_event
          | Ok size => process_parsed W st b k size
          end
      end
  end.

(** The loop of line 103. *)
Fixpoint process_records (W : world) (st : state) (records : list record)
  : result state :=
  match records with
  | [] => Ok st
  | r :: rest =>
      do st <- process_record W st r;
      process_records W st rest
  end.

(** The returned dict; [body] stands for the JSON text of its fields. *)
Record body : Type := {
  body_cv2_version : string;
  body_failed_records : list failed_record;
  body_successful_records : list successful_record
}.
Record response : Type := { statusCode : Z; response_body : body }.

Definition initial_state (fs : gmap string file) : state :=
  {| bucket := None; key := None; failed_records := [];
     successful_records := []; tmp := fs |}.

Definition make_response (W : world) (st : state) : response :=
  {| statusCode := 200;
     response_body :=
       {| body_cv2_version := cv2_version W;
          body_failed_records := failed_records st;
          body_successful_records := successful_records st |} |}.

(** The handler run from the files [fs] under /tmp: the final state, from
    which the response is built. *)
Definition lambda_handler_state (W : world) (fs : gmap string file) (ev : event)
  : result state :=
  do records <- getitem "Records" (Records ev);
  process_records W (initial_state fs) records.

Definition lambda_handler (W : world) (fs : gmap string file) (ev : event)
  : result response :=
  do st <- lambda_handler_state W fs ev;
  Ok (make_response W st).

(** ** Auxiliary notions for the statements *)

(** What one iteration appends: a success entry or a failure entry. *)
Inductive outcome : Type :=
| Success (s : successful_record)
| Failure (f : failed_record).

Definition successes (os : list outcome) : list successful_record :=
  omap (fun o => match o with Success s => Some s | Failure _ => None end) os.

Definition failures (os : list outcome) : list failed_record :=
  omap (fun o => match o with Failure f => Some f | Success _ => None end) os.

(** [st'] is [st] with the entry [o] appended to its list. *)
Definition appended (st st' : state) (o : outcome) : Prop :=
  match o with
  | Success s =>
      successful_records st' = (successful_records st ++ [s])%list /\
      failed_records st' = failed_records st
  | Failure f =>
      failed_records st' = (failed_records st ++ [f])%list /\
      successful_records st' = successful_records st
  end.

Definition error_messages : list string :=
  [ msg_no_event; msg_too_large; msg_file_type; msg_get_object;
    msg_detect_denied; msg_detect_invalid; msg_put_object ].

Definition raises {A} (r : result A) : bool :=
  match r with Raise _ => true | Ok _ => false end.

(** The [try] block of lines 106-112 ends in KeyError. *)
Definition is_malformed (r : record) : bool :=
  raises (lookup_bucket r) || raises (lookup_key r) || raises (lookup_size r).

(** The entry [o] is one that record [r] can produce: a success names the
    bucket and the decoded key of [r]; a failure carries one of the fixed
    messages. *)
Definition outcome_of (r : record) (o : outcome) : Prop :=
  match o with
  | Success s =>
      lookup_bucket r = Ok (s_bucket s) /\
      exists quoted, lookup_key r = Ok quoted /\ s_key s = unquote_plus quoted
  | Failure f =>
      f_error_message f ∈ error_messages /\
      (is_malformed r = false ->
       lookup_bucket r = Ok (f_bucket f) /\
       exists quoted, lookup_key r = Ok quoted /\ f_key f = unquote_plus quoted)
  end.

(** The values of [bucket] and [key] after the [try] block has run on [r],
    from their values before it. *)
Definition parse_locals (vars : option string * option string) (r : record)
  : option string * option string :=
  match lookup_bucket r with
  | Raise _ => vars
  | Ok b =>
      match lookup_key r with
      | Raise _ => (Some b, vars.2)
      | Ok quoted => (Some b, Some (unquote_plus quoted))
      end
  end.

(** The shape of a buffer, row by row, and a view that lies within it.  A
    NumPy array is rectangular; a list of rows is rectangular when all its
    rows have the length of the first. *)
Definition row_lengths (buf : ndarray) : list nat := map length buf.

Definition rectangular (img : ndarray) : Prop :=
  Forall (fun n => n = img_cols img) (row_lengths img).

Definition view_fits (v : view) (buf : ndarray) : Prop :=
  (v_top v + v_rows v <= length buf)%nat /\
  Forall (fun n => (v_left v + v_cols v <= n)%nat) (row_lengths buf).

(** A region that the blur with the default factor 3.0 cannot take: it is
    empty, or 2 pixels high or wide (the kernel is then -1; for 1 pixel
    OpenCV replaces it by 1). *)
Definition unblurrable (v : view) : Prop :=
  v_rows v = 0%nat \/ v_rows v = 2%nat \/ v_cols v = 0%nat \/ v_cols v = 2%nat.

Definition with_locals (st : state) (vars : option string * option string) : state :=
  {| bucket := vars.1; key := vars.2; failed_records := failed_records st;
     successful_records := successful_records st; tmp := tmp st |}.

Definition locals (st : state) : option string * option string :=
  (bucket st, key st).

Definition malformed_entry (b k : string) : failed_record :=
  {| f_bucket := b; f_key := k; f_error_message := msg_no_event |}.

(** ** Sample inputs *)

Definition gray (n : Z) : pixel := (n, n, n).

Definition mk_record (b k : string) (size : Z) : record :=
  {| record_s3 := Some
       {| entity_bucket := Some {| bucket_name := Some b |};
          entity_object := Some {| object_key := Some k; object_size := Some size |} |} |}.

(** A record with no "s3" entry, one whose object has no "key", one whose
    object has no "size". *)
Definition record_without_s3 : record := {| record_s3 := None |}.

Definition record_without_key (b : string) : record :=
  {| record_s3 := Some
       {| entity_bucket := Some {| bucket_name := Some b |};
          entity_object := Some {| object_key := None; object_size := None |} |} |}.

Definition record_without_size (b k : string) : record :=
  {| record_s3 := Some
       {| entity_bucket := Some {| bucket_name := Some b |};
          entity_object := Some {| object_key := Some k; object_size := None |} |} |}.

(** The face that covers the left half of an image. *)
Definition left_half : BoundingBox :=
  {| Left := 0; Top := 0; Width := 1 # 2; Height := 1 |}.

Definition photo : ndarray :=
  [ [gray 10; gray 20; gray 30; gray 40];
    [gray 50; gray 60; gray 70; gray 80] ].

(** A world in which the object "garbled.jpg" is not an image, the detector
    is denied access to "denied.jpg", the upload of "readonly.jpg" fails,
    and every other object is [photo] with one face on its left half. *)
Definition sample_world (blur_type : string) : world :=
  {| output_bucket := "out";
     BLUR_TYPE := Some blur_type;
     cv2_version := "4.5.1";
     conv := fun _ _ _ _ _ => gray 0;
     download_file := fun _ k =>
       if String.eqb k "garbled.jpg" then Ok None else Ok (Some photo);
     detect_faces := fun _ k =>
       if String.eqb k "denied.jpg" then Raise AccessDeniedException
       else Ok [ left_half ];
     upload_file := fun _ _ k =>
       if String.eqb k "readonly.jpg" then Raise S3UploadFailedError else Ok tt |}.

(** A 2 x 4 region, black but for its top right pixel. *)
Definition region_2x4 : ndarray :=
  [ [gray 0; gray 0; gray 0; gray 200];
    [gray 0; gray 0; gray 0; gray 0] ].

Definition white_1x1 : ndarray := [ [gray 255] ].

(** A uniform 3 x 6 image. *)
Definition portrait : ndarray := replicate 3 (replicate 6 (gray 90)).

(** A uniform 9 x 18 image; its left half is blurred with the kernel
    (3, 3). *)
Definition poster : ndarray := replicate 9 (replicate 18 (gray 90)).

Definition batch (records : list record) : event := {| Records := Some records |}.

(** A batch of four records: the second fails in the detector, the third
    is too large. *)
Definition mixed_batch : event :=
  batch [ mk_record "in" "a/first.jpg" 10; mk_record "in" "denied.jpg" 10;
          mk_record "in" "big.png" 16000000; mk_record "in" "last.png" 10 ].

Definition mixed_response : response :=
  {| statusCode := 200;
     response_body :=
       {| body_cv2_version := "4.5.1";
          body_failed_records :=
            [ {| f_bucket := "in"; f_key := "denied.jpg";
                 f_error_message := msg_detect_denied |};
              {| f_bucket := "in"; f_key := "big.png";
                 f_error_message := msg_too_large |} ];
          body_successful_records :=
            [ {| s_bucket := "in"; s_key := "a/first.jpg" |};
              {| s_bucket := "in"; s_key := "last.png" |} ] |} |}.

(** The files under /tmp after the handler has run, [None] if it raised. *)
Definition files_left (W : world) (fs : gmap string file) (ev : event)
  : option (list (string * file)) :=
  match lambda_handler_state W fs ev with
  | Ok st => Some (map_to_list (tmp st))
  | Raise _ => None
  end.

(** ** Further notions *)

(** The working file of a key: lines 111-112. *)
Definition local_filename_of (k : string) : string := "/tmp/" ++ split_last "/" k.

(** Lines 82-93 for the block of row [i] and column [j] of the grid, and
    the inner loop of line 79 for row [i]. *)
Definition grid_cell (image : view) (blocks : nat) (i : nat) (buf : ndarray) (j : nat)
  : ndarray :=
  let xSteps := linspace_int (v_cols image) blocks in
  let ySteps := linspace_int (v_rows image) blocks in
  pixelate_cell buf image
    (nth (j - 1) xSteps 0%nat) (nth (i - 1) ySteps 0%nat)
    (nth j xSteps 0%nat) (nth i ySteps 0%nat).

Definition grid_row (image : view) (blocks : nat) (buf : ndarray) (i : nat) : ndarray :=
  foldl (grid_cell image blocks i) buf (seq 1 blocks).

(** The pixel at row [dy] and column [dx] of the array lies in the block
    of row [i] and column [j]. *)
Definition in_block (image : view) (blocks : nat) (i j dy dx : nat) : Prop :=
  (nth (i - 1) (linspace_int (v_rows image) blocks) 0 <= dy
     < nth i (linspace_int (v_rows image) blocks) 0)%nat /\
  (nth (j - 1) (linspace_int (v_cols image) blocks) 0 <= dx
     < nth j (linspace_int (v_cols image) blocks) 0)%nat.

(** A pixel of 8-bit channels, and an array of such pixels. *)
Definition uint8_pixel (p : pixel) : Prop :=
  (0 <= p.1.1 <= 255)%Z /\ (0 <= p.1.2 <= 255)%Z /\ (0 <= p.2 <= 255)%Z.

Definition uint8_array (buf : ndarray) : Prop :=
  forall y x p, px buf y x = Some p -> uint8_pixel p.

(** What the handler keeps of its state apart from the files. *)
Definition without_files (st : state)
  : option string * option string * list failed_record * list successful_record :=
  (bucket st, key st, failed_records st, successful_records st).

(** Two runs that end alike: the same exception, or states that differ by
    their files only. *)
Definition same_outcome (r1 r2 : result state) : Prop :=
  match r1, r2 with
  | Ok st1, Ok st2 => without_files st1 = without_files st2
  | Raise e1, Raise e2 => e1 = e2
  | _, _ => False
  end.

(** Every object that the S3 client fetches and OpenCV decodes is an array,
    that is, rectangular. *)
Definition images_rectangular (W : world) : Prop :=
  forall b k image, download_file W b k = Ok (Some image) -> rectangular image.

(** The loop over the faces of [image] ends in the exception [e]: line 170
    reads a BLUR_TYPE that is not set, or line 173 blurs a face that the
    convolution refuses. *)
Inductive faces_abort (W : world) (image : ndarray) (FaceDetails : list BoundingBox)
  : exn -> Prop :=
| no_blur_type :
    BLUR_TYPE W = None -> FaceDetails <> [] ->
    faces_abort W image FaceDetails (KeyError "BLUR_TYPE")
| small_face blur_type detected_face :
    BLUR_TYPE W = Some blur_type -> blur_type <> "pixelate" ->
    detected_face ∈ FaceDetails ->
    unblurrable (face_region image detected_face) ->
    faces_abort W image FaceDetails cv2_error.

(** The steps of lines 130-187 on the object [k] of bucket [b] end in the
    exception [e]. *)
Inductive parsed_abort (W : world) (b k : string) : exn -> Prop :=
| fetch_error e :                        (* line 132, not a ClientError *)
    download_file W b k = Raise e -> is_ClientError e = false ->
    parsed_abort W b k e
| not_an_image :                         (* line 139, image.shape *)
    download_file W b k = Ok None ->
    parsed_abort W b k (AttributeError "'NoneType' object has no attribute 'shape'")
| detector_error image e :               (* line 143, not one of the two handled *)
    download_file W b k = Ok (Some image) ->
    detect_faces W b k = Raise e ->
    e <> AccessDeniedException -> e <> InvalidS3ObjectException ->
    parsed_abort W b k e
| face_error image FaceDetails e :       (* lines 158-176 *)
    download_file W b k = Ok (Some image) ->
    detect_faces W b k = Ok FaceDetails ->
    faces_abort W image FaceDetails e ->
    parsed_abort W b k e
| store_error image FaceDetails e :      (* line 183, not S3UploadFailedError *)
    download_file W b k = Ok (Some image) ->
    detect_faces W b k = Ok FaceDetails ->
    (forall e', ~ faces_abort W image FaceDetails e') ->
    upload_file W (local_filename_of k) (output_bucket W) k = Raise e ->
    e <> S3UploadFailedError ->
    parsed_abort W b k e.

(** The iteration on record [r], entered with the variables [bucket] and
    [key] as [vars], ends in the exception [e]: the handler of KeyError
    reads a variable that is unbound after the [try] block, or the record
    passes the size and type checks and one of the later steps raises. *)
Inductive record_abort (W : world) (vars : option string * option string) (r : record)
  : exn -> Prop :=
| unbound_bucket :
    is_malformed r = true -> (parse_locals vars r).1 = None ->
    record_abort W vars r (UnboundLocalError "bucket")
| unbound_key b :
    is_malformed r = true -> parse_locals vars r = (Some b, None) ->
    record_abort W vars r (UnboundLocalError "key")
| parsed_error b quoted size e :
    lookup_bucket r = Ok b -> lookup_key r = Ok quoted -> lookup_size r = Ok size ->
    size <= 15728640 ->
    supported_extension (local_filename_of (unquote_plus quoted)) = true ->
    parsed_abort W b (unquote_plus quoted) e ->
    record_abort W vars r e.

(** No iteration on [records], entered with the variables as [vars], ends
    in an exception. *)
Definition runs_through (W : world) (vars : option string * option string)
    (records : list record) : Prop :=
  forall pre r post e,
    records = (pre ++ r :: post)%list ->
    ~ record_abort W (foldl parse_locals vars pre) r e.

(** The ways in which an exception leaves [lambda_handler]: the event has
    no "Records" (line 103), or the iteration on one record ends in the
    exception after the iterations on the records before it have run
    through. *)
Inductive abort_cause (W : world) (ev : event) : exn -> Prop :=
| no_records :
    Records ev = None -> abort_cause W ev (KeyError "Records")
| record_error pre r post e :
    Records ev = Some (pre ++ r :: post)%list ->
    runs_through W (None, None) pre ->
    record_abort W (foldl parse_locals (None, None) pre) r e ->
    abort_cause W ev e.

(** * Properties *)

(** ** The blurring kernel *)

Section Kernel.

Implicit Types (k : Z) (d : nat) (factor : Q).

Lemma kernel_raw_pos d n p :
  kernel_raw d (Zpos n # p) = (Z.of_nat d * Zpos p) / Zpos n.
Proof.
  unfold kernel_raw, py_int, Qdiv, Qmult, Qinv. simpl.
  rewrite Z.quot_div_nonneg by lia. by rewrite Pos.mul_1_l.
Qed.

Lemma kernel_odd_is_odd k : kernel_odd k mod 2 = 1.
Proof.
  unfold kernel_odd. destruct (Z.eqb_spec (k mod 2) 0);
    Z.to_euclidean_division_equations; lia.
Qed.

Lemma kernel_odd_step k :
  (k mod 2 = 0 -> kernel_odd k = k - 1) /\ (k mod 2 <> 0 -> kernel_odd k = k).
Proof. unfold kernel_odd. by destruct (Z.eqb_spec (k mod 2) 0). Qed.

Lemma div_at_least_1 a n : 0 <= a -> 0 < n -> 1 <= a / n <-> n <= a.
Proof.
  intros Ha Hn. split.
  - intros Hdiv. destruct (Z.lt_ge_cases a n) as [Hlt|]; [|lia].
    rewrite Z.div_small in Hdiv; lia.
  - intros Hle. apply Z.div_le_lower_bound; lia.
Qed.

(** An odd kernel is below 1 only when the computed size is 0. *)
Lemma kernel_odd_at_least_1 k : 0 <= k -> 1 <= kernel_odd k <-> 1 <= k.
Proof.
  intros Hk. unfold kernel_odd.
  destruct (Z.eqb_spec (k mod 2) 0);
    Z.to_euclidean_division_equations; lia.
Qed.

Lemma kernel_raw_nonneg d factor : (0 < factor)%Q -> 0 <= kernel_raw d factor.
Proof.
  destruct factor as [[|n|n] p]; unfold Qlt; simpl; try lia.
  intros _. rewrite kernel_raw_pos. apply Z.div_pos; lia.
Qed.

Lemma kernel_at_least_1 d factor :
  (0 < factor)%Q ->
  1 <= kernel_odd (kernel_raw d factor) <-> (factor <= inject_Z (Z.of_nat d))%Q.
Proof.
  intros Hfactor.
  rewrite kernel_odd_at_least_1 by by apply kernel_raw_nonneg.
  destruct factor as [[|n|n] p]; unfold Qlt, Qle in *; simpl in *; try lia.
  rewrite kernel_raw_pos, div_at_least_1; lia.
Qed.

Lemma kernel_below_1 d factor :
  (0 < factor)%Q ->
  ~ 1 <= kernel_odd (kernel_raw d factor) ->
  kernel_raw d factor = 0 /\ kernel_odd (kernel_raw d factor) = -1.
Proof.
  intros Hfactor%(kernel_raw_nonneg d) Hsmall.
  rewrite kernel_odd_at_least_1 in Hsmall by done.
  assert (kernel_raw d factor = 0) as -> by lia. done.
Qed.

Lemma valid_ksize_kernel_odd k :
  valid_ksize (kernel_odd k) = (1 <=? kernel_odd k)%Z.
Proof.
  unfold valid_ksize. rewrite kernel_odd_is_odd, Z.eqb_refl, andb_true_r.
  destruct (Z.ltb_spec 0 (kernel_odd k)), (Z.leb_spec 1 (kernel_odd k)); lia.
Qed.

End Kernel.

(** ** Pixels of a modified buffer *)

Section Pixels.

Implicit Types (buf data : ndarray) (v : view) (y x : nat) (c : pixel).

Lemma px_imap (f : nat -> nat -> pixel -> pixel) buf y x :
  px (imap (fun y row => imap (f y) row) buf) y x = f y x <$> px buf y x.
Proof.
  unfold px. rewrite list_lookup_imap.
  destruct (buf !! y) as [row|]; simpl; [|done].
  by rewrite list_lookup_imap.
Qed.

Lemma px_fill_rect buf top bottom left right c y x :
  px (fill_rect buf top bottom left right c) y x =
  if (top <=? y)%nat && (y <? bottom)%nat && ((left <=? x)%nat && (x <? right)%nat)
  then (fun _ => c) <$> px buf y x
  else px buf y x.
Proof.
  unfold fill_rect, px. rewrite list_lookup_imap.
  destruct (buf !! y) as [row|]; simpl.
  - destruct ((top <=? y)%nat && (y <? bottom)%nat); simpl; [|done].
    rewrite list_lookup_imap.
    destruct (row !! x); simpl; [|by destruct (_ && _)].
    by destruct ((left <=? x)%nat && (x <? right)%nat).
  - by destruct (_ && _ && _).
Qed.

Lemma length_fill_rect buf top bottom left right c :
  length (fill_rect buf top bottom left right c) = length buf.
Proof. unfold fill_rect. by rewrite length_imap. Qed.

(** A rectangle drawn into a view stays within the view. *)
Lemma px_cv2_rectangle_outside buf v pt1 pt2 c y x :
  in_view v y x = false ->
  px (cv2_rectangle buf v pt1 pt2 c) y x = px buf y x.
Proof.
  destruct pt1 as [x1 y1], pt2 as [x2 y2]. unfold cv2_rectangle, in_view.
  intros Hout. rewrite px_fill_rect.
  destruct (_ && _ && (_ && _)) eqn:Hin; [|done].
  rewrite !andb_true_iff, !Nat.leb_le, !Nat.ltb_lt in Hin.
  rewrite <- not_true_iff_false, !andb_true_iff, !Nat.leb_le, !Nat.ltb_lt in Hout.
  lia.
Qed.

Lemma length_cv2_rectangle buf v pt1 pt2 c :
  length (cv2_rectangle buf v pt1 pt2 c) = length buf.
Proof.
  destruct pt1, pt2. unfold cv2_rectangle. apply length_fill_rect.
Qed.

Lemma px_pixelate_cell_outside buf v sx sy ex ey y x :
  in_view v y x = false ->
  px (pixelate_cell buf v sx sy ex ey) y x = px buf y x.
Proof.
  intros Hout. unfold pixelate_cell. by apply px_cv2_rectangle_outside.
Qed.

(** What one block does to a pixel: inside the rectangle from
    (startX, startY) to (endX, endY), both included and clipped to the
    array, the pixel takes the colour of the block; elsewhere it is kept. *)
Lemma px_pixelate_cell buf v sx sy ex ey y x :
  px (pixelate_cell buf v sx sy ex ey) y x =
  if (v_top v + sy <=? y)%nat && (y <? v_top v + Nat.min (S ey) (v_rows v))%nat &&
     ((v_left v + sx <=? x)%nat && (x <? v_left v + Nat.min (S ex) (v_cols v))%nat)
  then (fun _ => block_color buf v sx sy ex ey) <$> px buf y x
  else px buf y x.
Proof. unfold pixelate_cell, cv2_rectangle. apply px_fill_rect. Qed.

(** In particular every pixel of the block itself, rows [sy, ey) and
    columns [sx, ex) of the array, is overwritten with the truncated mean
    of the block. *)
Lemma px_pixelate_cell_inside buf v sx sy ex ey dy dx p :
  (sy <= dy < ey)%nat -> (sx <= dx < ex)%nat ->
  (dy < v_rows v)%nat -> (dx < v_cols v)%nat ->
  px buf (v_top v + dy) (v_left v + dx) = Some p ->
  px (pixelate_cell buf v sx sy ex ey) (v_top v + dy) (v_left v + dx) =
  Some (block_color buf v sx sy ex ey).
Proof.
  intros Hy Hx Hrows Hcols Hp. rewrite px_pixelate_cell, Hp.
  destruct (_ && _ && (_ && _)) eqn:Hin; [done|].
  rewrite <- not_true_iff_false, !andb_true_iff, !Nat.leb_le, !Nat.ltb_lt in Hin.
  lia.
Qed.

Lemma length_pixelate_cell buf v sx sy ex ey :
  length (pixelate_cell buf v sx sy ex ey) = length buf.
Proof.
  unfold pixelate_cell. apply length_cv2_rectangle.
Qed.

(** A loop whose every step keeps a property of the buffer relative to
    the initial one keeps it. *)
Lemma foldl_preserves {I} (P : ndarray -> Prop) (step : ndarray -> I -> ndarray)
    (l : list I) buf :
  P buf -> (forall b i, P b -> P (step b i)) -> P (foldl step buf l).
Proof.
  intros Hbuf Hstep. revert buf Hbuf.
  induction l as [|i l IH]; intros buf Hbuf; simpl; [done|].
  apply IH, Hstep, Hbuf.
Qed.

Lemma px_pixelate_outside buf v blocks y x :
  in_view v y x = false ->
  px (anonymize_face_pixelate buf v blocks) y x = px buf y x.
Proof.
  intros Hout. unfold anonymize_face_pixelate.
  apply (foldl_preserves (fun b => px b y x = px buf y x)); [done|].
  intros b i Hb.
  apply (foldl_preserves (fun b => px b y x = px buf y x)); [done|].
  intros b' j Hb'. by rewrite px_pixelate_cell_outside.
Qed.

Lemma length_pixelate buf v blocks :
  length (anonymize_face_pixelate buf v blocks) = length buf.
Proof.
  unfold anonymize_face_pixelate.
  apply (foldl_preserves (fun b => length b = length buf)); [done|].
  intros b i Hb.
  apply (foldl_preserves (fun b => length b = length buf)); [done|].
  intros b' j Hb'. by rewrite length_pixelate_cell.
Qed.

Lemma px_assign_view_outside buf v data buf' y x :
  assign_view buf v data = Ok buf' ->
  in_view v y x = false ->
  px buf' y x = px buf y x.
Proof.
  unfold assign_view. destruct (same_shape v data); [|done].
  intros [= <-] Hout. rewrite px_imap, Hout.
  by destruct (px buf y x).
Qed.

Lemma length_assign_view buf v data buf' :
  assign_view buf v data = Ok buf' -> length buf' = length buf.
Proof.
  unfold assign_view. destruct (same_shape v data); [|done].
  intros [= <-]. by rewrite length_imap.
Qed.

(** *** Shapes *)

Lemma row_lengths_imap (f : nat -> list pixel -> list pixel) buf :
  (forall y row, length (f y row) = length row) ->
  row_lengths (imap f buf) = row_lengths buf.
Proof.
  intros Hf. unfold row_lengths. apply list_eq. intros y.
  rewrite !list_lookup_fmap, list_lookup_imap.
  destruct (buf !! y); simpl; by rewrite ?Hf.
Qed.

Lemma row_lengths_fill_rect buf top bottom left right c :
  row_lengths (fill_rect buf top bottom left right c) = row_lengths buf.
Proof.
  apply row_lengths_imap. intros y row.
  destruct (_ && _); by rewrite ?length_imap.
Qed.

Lemma row_lengths_pixelate buf v blocks :
  row_lengths (anonymize_face_pixelate buf v blocks) = row_lengths buf.
Proof.
  unfold anonymize_face_pixelate.
  apply (foldl_preserves (fun b => row_lengths b = row_lengths buf)); [done|].
  intros b i Hb.
  apply (foldl_preserves (fun b => row_lengths b = row_lengths buf)); [done|].
  intros b' j Hb'. unfold pixelate_cell, cv2_rectangle.
  by rewrite row_lengths_fill_rect.
Qed.

Lemma row_lengths_assign_view buf v data buf' :
  assign_view buf v data = Ok buf' -> row_lengths buf' = row_lengths buf.
Proof.
  unfold assign_view. destruct (same_shape v data); [|done].
  intros [= <-]. apply row_lengths_imap. intros y row. by rewrite length_imap.
Qed.

Lemma slice_index_le n i : (slice_index n i <= n)%nat.
Proof. unfold slice_index. destruct (i <? 0)%Z; lia. Qed.

(** A slice of a rectangular array lies within it. *)
Lemma face_region_fits img detected_face :
  rectangular img -> view_fits (face_region img detected_face) img.
Proof.
  intros Hrect. unfold face_region.
  destruct (bounding_rect _ _ _) as [[[x1 y1] x2] y2].
  unfold view_fits, subview, whole. simpl.
  pose proof (slice_index_le (img_rows img) y1).
  pose proof (slice_index_le (img_rows img) y2).
  pose proof (slice_index_le (img_cols img) x1).
  pose proof (slice_index_le (img_cols img) x2).
  split; [unfold img_rows in *; lia|].
  eapply Forall_impl; [exact Hrect|]. simpl. intros n ->. lia.
Qed.

Lemma length_slice {A} (l : list A) start len :
  (start + len <= length l)%nat -> length (slice start len l) = len.
Proof. intros Hfit. unfold slice. rewrite length_take, length_drop. lia. Qed.

(** The contents of a view that lies within the buffer have the shape of
    the view. *)
Lemma same_shape_view_data buf v :
  view_fits v buf -> same_shape v (view_data buf v) = true.
Proof.
  intros [Hrows Hcols]. unfold same_shape, view_data.
  rewrite length_map, length_slice by done. rewrite Nat.eqb_refl. simpl.
  apply forallb_forall. intros row' Hin%list_elem_of_In.
  apply list_elem_of_fmap in Hin as (row & -> & Hrow).
  apply Nat.eqb_eq, length_slice.
  unfold slice in Hrow. apply subseteq_take, subseteq_drop in Hrow.
  unfold row_lengths in Hcols. rewrite Forall_fmap in Hcols.
  by apply (proj1 (Forall_forall _ _) Hcols).
Qed.

(** For a rectangle within the image, 0 <= y1 <= y2 <= height and
    0 <= x1 <= x2 <= width, the view [image[y1:y2, x1:x2]] is the
    rectangle itself. *)
Lemma in_view_subview_whole (img : ndarray) (y1 y2 x1 x2 : Z) y x :
  0 <= y1 <= y2 -> y2 <= Z.of_nat (img_rows img) ->
  0 <= x1 <= x2 -> x2 <= Z.of_nat (img_cols img) ->
  in_view (subview (whole img) y1 y2 x1 x2) y x =
  (y1 <=? Z.of_nat y)%Z && (Z.of_nat y <? y2)%Z &&
  (x1 <=? Z.of_nat x)%Z && (Z.of_nat x <? x2)%Z.
Proof.
  intros Hy Hy2 Hx Hx2. unfold in_view, subview, whole, slice_index. simpl.
  destruct (Z.ltb_spec y1 0), (Z.ltb_spec y2 0), (Z.ltb_spec x1 0),
    (Z.ltb_spec x2 0); try lia.
  apply eq_true_iff_eq.
  rewrite !andb_true_iff, !Nat.leb_le, !Nat.ltb_lt, !Z.leb_le, !Z.ltb_lt.
  lia.
Qed.

Lemma same_shape_row_lengths v data data' :
  row_lengths data = row_lengths data' -> same_shape v data = same_shape v data'.
Proof.
  unfold same_shape, row_lengths. intros Hlen.
  assert (forall d : ndarray,
            forallb (fun row => (length row =? v_cols v)%nat) d =
            forallb (fun n => (n =? v_cols v)%nat) (map length d)) as Hmap.
  { induction d as [|row d IH]; simpl; by rewrite ?IH. }
  rewrite !Hmap, <- (length_map length data), <- (length_map length data').
  by rewrite Hlen.
Qed.

Lemma img_rows_view_data buf v : view_fits v buf -> img_rows (view_data buf v) = v_rows v.
Proof.
  intros [Hrows _]. unfold img_rows, view_data. by rewrite length_map, length_slice.
Qed.

Lemma img_cols_view_data buf v :
  view_fits v buf -> (0 < v_rows v)%nat -> img_cols (view_data buf v) = v_cols v.
Proof.
  intros Hfits Hrows.
  pose proof (same_shape_view_data buf v Hfits) as Hshape.
  pose proof (img_rows_view_data buf v Hfits) as Hlen.
  unfold same_shape in Hshape. unfold img_rows in Hlen. unfold img_cols.
  destruct (view_data buf v) as [|row rest]; simpl in *; [lia|].
  apply andb_prop in Hshape as [_ Hshape]. apply andb_prop in Hshape as [Hrow _].
  by apply Nat.eqb_eq.
Qed.

Lemma valid_ksize_forced (one : bool) k :
  valid_ksize (if one then 1 else kernel_odd k) =
  (1 <=? (if one then 1 else kernel_odd k))%Z.
Proof. destruct one; [done | apply valid_ksize_kernel_odd]. Qed.

(** The blur of a view of a buffer, step by step. *)
Lemma blur_unfold conv buf v (factor : Q) :
  (0 < factor)%Q -> view_fits v buf ->
  anonymize_face_simple conv buf v factor =
  if (v_rows v =? 0)%nat || (v_cols v =? 0)%nat then Raise cv2_error
  else
    let kH := if (v_rows v =? 1)%nat then 1 else kernel_odd (kernel_raw (v_rows v) factor) in
    let kW := if (v_cols v =? 1)%nat then 1 else kernel_odd (kernel_raw (v_cols v) factor) in
    if (kW =? 1)%Z && (kH =? 1)%Z then Ok (view_data buf v)
    else if (1 <=? kW)%Z && (1 <=? kH)%Z
    then Ok (imap (fun y row => imap (fun x _ => conv (view_data buf v) kW kH y x) row)
               (view_data buf v))
    else Raise cv2_error.
Proof.
  intros Hfactor Hfits. unfold anonymize_face_simple.
  destruct (Qeq_bool factor 0) eqn:Hzero.
  { apply Qeq_bool_iff in Hzero. rewrite Hzero in Hfactor.
    by apply Qlt_irrefl in Hfactor. }
  unfold cv2_GaussianBlur, blur_kernel. rewrite img_rows_view_data by done.
  destruct (Nat.eqb_spec (v_rows v) 0) as [|Hrows]; [done|].
  rewrite img_cols_view_data by (done || lia). simpl.
  destruct (v_cols v =? 0)%nat; [done|].
  by rewrite !valid_ksize_forced.
Qed.

(** A region that is not empty is blurred when each dimension is 1 pixel or
    has a kernel of at least 1; the result has the shape of the region. *)
Lemma blur_returns conv buf v (factor : Q) :
  (0 < factor)%Q -> view_fits v buf ->
  v_rows v <> 0%nat -> v_cols v <> 0%nat ->
  (v_cols v = 1%nat \/ 1 <= kernel_odd (kernel_raw (v_cols v) factor)) ->
  (v_rows v = 1%nat \/ 1 <= kernel_odd (kernel_raw (v_rows v) factor)) ->
  exists blurred,
    anonymize_face_simple conv buf v factor = Ok blurred /\
    row_lengths blurred = row_lengths (view_data buf v).
Proof.
  intros Hfactor Hfits Hrows Hcols HW HH. rewrite blur_unfold by done.
  destruct (Nat.eqb_spec (v_rows v) 0); [done|].
  destruct (Nat.eqb_spec (v_cols v) 0); [done|]. simpl.
  destruct (_ && _)%bool; [by eexists|].
  assert ((1 <=? (if (v_cols v =? 1)%nat then 1
                  else kernel_odd (kernel_raw (v_cols v) factor)))%Z = true) as ->.
  { destruct (Nat.eqb_spec (v_cols v) 1); [done|]. apply Z.leb_le. lia. }
  assert ((1 <=? (if (v_rows v =? 1)%nat then 1
                  else kernel_odd (kernel_raw (v_rows v) factor)))%Z = true) as ->.
  { destruct (Nat.eqb_spec (v_rows v) 1); [done|]. apply Z.leb_le. lia. }
  simpl. eexists. split; [done|].
  apply row_lengths_imap. intros y row. by rewrite length_imap.
Qed.

(** Every other region makes the blur raise cv2.error. *)
Lemma blur_raises conv buf v (factor : Q) :
  (0 < factor)%Q -> view_fits v buf ->
  v_rows v = 0%nat \/ v_cols v = 0%nat \/
  (v_cols v <> 1%nat /\ kernel_odd (kernel_raw (v_cols v) factor) < 1) \/
  (v_rows v <> 1%nat /\ kernel_odd (kernel_raw (v_rows v) factor) < 1) ->
  anonymize_face_simple conv buf v factor = Raise cv2_error.
Proof.
  intros Hfactor Hfits Hbad. rewrite blur_unfold by done.
  destruct (Nat.eqb_spec (v_rows v) 0); [done|].
  destruct (Nat.eqb_spec (v_cols v) 0); [done|]. simpl.
  destruct (Nat.eqb_spec (v_cols v) 1), (Nat.eqb_spec (v_rows v) 1);
    repeat match goal with
           | |- context [(?a =? 1)%Z] => destruct (Z.eqb_spec a 1)
           | |- context [(1 <=? ?a)%Z] => destruct (Z.leb_spec 1 a)
           end; simpl; try done; lia.
Qed.

(** With the default factor the kernel of a dimension is at least 1 from 3
    pixels on. *)
Lemma default_kernel_at_least_1 d :
  1 <= kernel_odd (kernel_raw d 3) <-> (3 <= d)%nat.
Proof.
  rewrite kernel_at_least_1 by done. unfold Qle. simpl. lia.
Qed.

Lemma blur_face_returns (W : world) (img : ndarray) detected_face blur_type :
  rectangular img ->
  BLUR_TYPE W = Some blur_type -> blur_type <> "pixelate" ->
  ~ unblurrable (face_region img detected_face) ->
  exists img', anonymize_detected_face W img detected_face = Ok img'.
Proof.
  intros Hrect Hblur Hother Hfine. unfold unblurrable in Hfine.
  pose proof (face_region_fits img detected_face Hrect) as Hfits.
  unfold anonymize_detected_face. rewrite Hblur. simpl.
  apply String.eqb_neq in Hother. rewrite Hother.
  destruct (blur_returns (conv W) img (face_region img detected_face) 3)
    as (blurred & -> & Hshape); try done; try lia.
  - rewrite default_kernel_at_least_1. lia.
  - rewrite default_kernel_at_least_1. lia.
  - simpl. unfold assign_view.
    rewrite (same_shape_row_lengths _ _ (view_data img (face_region img detected_face)))
      by done.
    rewrite same_shape_view_data by done. by eexists.
Qed.

(** The blur of a face that is empty or 2 pixels high or wide raises. *)
Lemma unblurrable_face_raises (W : world) (img : ndarray) detected_face blur_type :
  rectangular img ->
  BLUR_TYPE W = Some blur_type -> blur_type <> "pixelate" ->
  unblurrable (face_region img detected_face) ->
  anonymize_detected_face W img detected_face = Raise cv2_error.
Proof.
  intros Hrect Hblur Hother Hbad. unfold unblurrable in Hbad.
  pose proof (face_region_fits img detected_face Hrect) as Hfits.
  unfold anonymize_detected_face. rewrite Hblur. simpl.
  apply String.eqb_neq in Hother. rewrite Hother.
  rewrite blur_raises; [done..|].
  pose proof (default_kernel_at_least_1 (v_rows (face_region img detected_face))).
  pose proof (default_kernel_at_least_1 (v_cols (face_region img detected_face))).
  lia.
Qed.

(** The pixelation of a face never raises. *)
Lemma pixelate_face_returns (W : world) (img : ndarray) detected_face :
  rectangular img ->
  BLUR_TYPE W = Some "pixelate" ->
  exists img', anonymize_detected_face W img detected_face = Ok img'.
Proof.
  intros Hrect Hblur. unfold anonymize_detected_face. rewrite Hblur. simpl.
  unfold assign_view. rewrite same_shape_view_data; [by eexists|].
  destruct (face_region_fits img detected_face Hrect) as [Hrows Hcols].
  split; [by rewrite length_pixelate | by rewrite row_lengths_pixelate].
Qed.

End Pixels.

(** C8.  Whichever variant BLUR_TYPE selects, anonymising one detected face
    (lines 160-176: take the view [image[y1:y2, x1:x2]], pixelate it in
    place or blur it, assign the result to the same rectangle) leaves every
    pixel outside that rectangle as it was, and keeps the shape of the
    image. *)
Theorem anonymize_leaves_outside_unchanged
    (W : world) (image image' : ndarray) (detected_face : BoundingBox) :
  anonymize_detected_face W image detected_face = Ok image' ->
  row_lengths image' = row_lengths image /\
  forall y x,
    in_view (face_region image detected_face) y x = false ->
    px image' y x = px image y x.
Proof.
  unfold anonymize_detected_face.
  destruct (BLUR_TYPE W) as [blur_type|]; simpl; [|done].
  destruct (String.eqb blur_type "pixelate").
  - intros Hassign. split.
    + rewrite (row_lengths_assign_view _ _ _ _ Hassign).
      apply row_lengths_pixelate.
    + intros y x Hout.
      rewrite (px_assign_view_outside _ _ _ _ _ _ Hassign Hout).
      by apply px_pixelate_outside.
  - destruct (anonymize_face_simple _ _ _ _) as [blurred|e]; simpl; [|done].
    intros Hassign. split.
    + apply (row_lengths_assign_view _ _ _ _ Hassign).
    + intros y x Hout. apply (px_assign_view_outside _ _ _ _ _ _ Hassign Hout).
Qed.

(** ** One iteration of the handler *)

Section Iteration.

Context (W : world).
Implicit Types (st : state) (r : record) (b k msg : string).

Lemma fail_record_ok st msg st' :
  fail_record st msg = Ok st' ->
  exists b k,
    bucket st = Some b /\ key st = Some k /\
    st' = {| bucket := Some b; key := Some k;
             failed_records := add_failed b msg (failed_records st) k;
             successful_records := successful_records st;
             tmp := tmp st |}.
Proof.
  unfold fail_record.
  destruct (bucket st) as [b|]; simpl; [|done].
  destruct (key st) as [k|]; simpl; [|done].
  intros [= <-]. by exists b, k.
Qed.

(** [fail_record] in a state [st1] that differs from [st] by its files
    only. *)
Lemma fail_record_after st st1 b k msg st' :
  bucket st = Some b -> key st = Some k -> msg ∈ error_messages ->
  locals st1 = locals st ->
  failed_records st1 = failed_records st ->
  successful_records st1 = successful_records st ->
  fail_record st1 msg = Ok st' ->
  locals st' = locals st /\
  ((exists msg, msg ∈ error_messages /\
      appended st st' (Failure {| f_bucket := b; f_key := k; f_error_message := msg |})) \/
   appended st st' (Success {| s_bucket := b; s_key := k |})).
Proof.
  unfold locals. intros Hb Hk Hmsg [= Hb1 Hk1] Hfailed Hsucc.
  intros (b' & k' & Hb' & Hk' & ->)%fail_record_ok.
  simpl. rewrite Hfailed, Hsucc.
  assert (b' = b) as -> by congruence. assert (k' = k) as -> by congruence.
  split; [by rewrite Hb, Hk|]. left. by exists msg.
Qed.

Ltac known_message := unfold error_messages; set_solver.

(** A record that has been parsed ends in exactly one entry, which
    carries its own bucket and key. *)
Lemma process_parsed_ok st b k size st' :
  bucket st = Some b -> key st = Some k ->
  process_parsed W st b k size = Ok st' ->
  locals st' = locals st /\
  ((exists msg, msg ∈ error_messages /\
      appended st st' (Failure {| f_bucket := b; f_key := k; f_error_message := msg |})) \/
   appended st st' (Success {| s_bucket := b; s_key := k |})).
Proof.
  intros Hb Hk. unfold process_parsed.
  (* size and type checks *)
  destruct (15728640 <? size)%Z.
  { apply fail_record_after; try done; known_message. }
  destruct (negb _).
  { apply fail_record_after; try done; known_message. }
  (* fetch *)
  destruct (download_file W b k) as [content|e].
  2:{ destruct (is_ClientError e); [|done].
      apply fail_record_after; try done; known_message. }
  (* decode *)
  destruct (mjoin _) as [image|]; [|done].
  (* detect *)
  destruct (detect_faces W b k) as [FaceDetails|e].
  2:{ destruct e; try done; apply fail_record_after; try done; known_message. }
  (* anonymize, encode and store *)
  destruct (anonymize_faces W image FaceDetails) as [image'|]; simpl; [|done].
  destruct (upload_file W _ _ k) as [[]|e].
  2:{ destruct e; try done. apply fail_record_after; try done; known_message. }
  intros [= <-]. unfold locals.
  split; [by destruct (decide _)|].
  right. by destruct (decide _).
Qed.

(** The decode step has no handler: an object that is fetched but is not
    an image ends the whole call. *)
Lemma undecodable_object_raises st b k size :
  (size <= 15728640)%Z ->
  supported_extension ("/tmp/" ++ split_last "/" k) = true ->
  download_file W b k = Ok None ->
  process_parsed W st b k size =
  Raise (AttributeError "'NoneType' object has no attribute 'shape'").
Proof.
  intros Hsize Hext Hfetch. unfold process_parsed.
  destruct (Z.ltb_spec 15728640 size); [lia|].
  rewrite Hext, Hfetch. simpl. by rewrite lookup_insert_eq.
Qed.

(** The handlers of the detector errors leave through [continue]: the
    file that was fetched is still there after the iteration. *)
Lemma detector_failure_keeps_file st b k size image e :
  bucket st = Some b -> key st = Some k ->
  (size <= 15728640)%Z ->
  supported_extension ("/tmp/" ++ split_last "/" k) = true ->
  download_file W b k = Ok (Some image) ->
  detect_faces W b k = Raise e ->
  e = AccessDeniedException \/ e = InvalidS3ObjectException ->
  exists st',
    process_parsed W st b k size = Ok st' /\
    tmp st' !! ("/tmp/" ++ split_last "/" k) = Some (Some image).
Proof.
  intros Hb Hk Hsize Hext Hfetch Hdetect He. unfold process_parsed.
  destruct (Z.ltb_spec 15728640 size); [lia|].
  rewrite Hext, Hfetch. simpl. rewrite lookup_insert_eq, Hdetect. simpl.
  destruct He as [-> | ->]; unfold fail_record; simpl; rewrite Hb, Hk; simpl;
    (eexists; split; [done|]; simpl; by rewrite lookup_insert_eq).
Qed.

Lemma process_record_ok st r st' :
  process_record W st r = Ok st' ->
  locals st' = parse_locals (locals st) r /\
  exists o, appended st st' o /\ outcome_of r o.
Proof.
  unfold process_record, parse_locals, outcome_of, is_malformed.
  destruct (lookup_bucket r) as [b|e] eqn:Hbucket.
  2:{ intros (b & k & Hb & Hk & ->)%fail_record_ok.
      unfold locals. rewrite Hb, Hk. split; [done|].
      eexists (Failure _). split; [done|]. simpl.
      split; [unfold error_messages; set_solver | done]. }
  destruct (lookup_key r) as [quoted|e] eqn:Hkey.
  2:{ intros (b' & k & Hb & Hk & ->)%fail_record_ok. simpl in *.
      unfold locals. rewrite Hk. simplify_eq. split; [done|].
      eexists (Failure _). split; [done|]. simpl.
      split; [unfold error_messages; set_solver | done]. }
  destruct (lookup_size r) as [size|e] eqn:Hsize.
  2:{ intros (b' & k & Hb & Hk & ->)%fail_record_ok. simpl in *.
      simplify_eq. split; [done|].
      eexists (Failure _). split; [done|]. simpl.
      split; [unfold error_messages; set_solver | done]. }
  intros [Hlocals Hout]%process_parsed_ok; [|done..].
  split; [done|].
  destruct Hout as [(msg & Hmsg & Happ)|Happ].
  - eexists (Failure _). split; [exact Happ|]. simpl. eauto 6.
  - eexists (Success _). split; [exact Happ|]. simpl. eauto.
Qed.

(** A malformed record: the handler of KeyError runs with the variables
    as the [try] block left them. *)
Lemma process_record_malformed st r :
  is_malformed r = true ->
  process_record W st r =
  fail_record (with_locals st (parse_locals (locals st) r)) msg_no_event.
Proof.
  unfold is_malformed, process_record, parse_locals.
  destruct (lookup_bucket r); [|done].
  destruct (lookup_key r); [|done].
  destruct (lookup_size r); [|done]. done.
Qed.

Lemma process_records_app st rs1 rs2 :
  process_records W st (rs1 ++ rs2) =
  (do st1 <- process_records W st rs1; process_records W st1 rs2).
Proof.
  revert st. induction rs1 as [|r rs1 IH]; intros st; simpl; [done|].
  destruct (process_record W st r); simpl; [apply IH | done].
Qed.

Lemma process_records_locals st rs st' :
  process_records W st rs = Ok st' ->
  locals st' = foldl parse_locals (locals st) rs.
Proof.
  revert st. induction rs as [|r rs IH]; intros st; simpl.
  - by intros [= <-].
  - destruct (process_record W st r) as [st1|] eqn:Hr; simpl; [|done].
    intros Hrest. apply process_record_ok in Hr as [<- _]. by apply IH.
Qed.

(** The loop appends one entry per record, in the order of the records. *)
Lemma process_records_ok st rs st' :
  process_records W st rs = Ok st' ->
  exists os,
    Forall2 outcome_of rs os /\
    successful_records st' = (successful_records st ++ successes os)%list /\
    failed_records st' = (failed_records st ++ failures os)%list.
Proof.
  revert st. induction rs as [|r rs IH]; intros st; simpl.
  - intros [= <-]. exists []. by rewrite !app_nil_r.
  - destruct (process_record W st r) as [st1|] eqn:Hr; simpl; [|done].
    intros (os & Hos & Hsucc & Hfail)%IH.
    apply process_record_ok in Hr as (_ & o & Happ & Ho).
    exists (o :: os). split; [by constructor|].
    rewrite Hsucc, Hfail. unfold successes, failures.
    destruct o as [s|f]; destruct Happ as [-> ->]; csimpl;
      by rewrite <- ?app_assoc.
Qed.

Lemma length_outcomes (os : list outcome) :
  (length (successes os) + length (failures os))%nat = length os.
Proof.
  unfold successes, failures.
  induction os as [|[s|f] os IH]; csimpl; lia.
Qed.

End Iteration.

(** ** The blur variant *)

(** The scenario of an image of 100 x 100 pixels with one face at
    (0.2, 0.2) of size 0.3 x 0.3: the rectangle is (20, 20, 50, 50), and the
    kernel computed for it, (10, 10), becomes (9, 9). *)
Example scenario_rectangle :
  bounding_rect 100 100
    {| Left := 2 # 10; Top := 2 # 10; Width := 3 # 10; Height := 3 # 10 |} =
  (20, 20, 50, 50).
Proof. reflexivity. Qed.

Example scenario_kernel :
  kernel_raw 30 3 = 10 /\ blur_kernel 30 30 3 = (9, 9).
Proof. split; reflexivity. Qed.

(** C3, as the code has it.  For a factor > 0 the kernel width and height
    handed to the Gaussian convolution are always odd: an even computed
    value is decremented by exactly 1, an odd one is kept.  They are at
    least 1 exactly when the dimension of the region is at least the
    factor.  For a smaller dimension the computed value 0 becomes -1 and is
    handed to the convolution all the same: there is no check in
    [anonymize_face_simple].  The call returns exactly when each dimension
    of the region either has a kernel of at least 1 or is 1 pixel (the
    convolution then replaces its kernel by 1); in every other case it ends
    in the cv2.error of the convolution itself. *)
Theorem blur_kernel_odd_but_unchecked
    (conv : convolution) (buf : ndarray) (image : view) (factor : Q) :
  (0 < factor)%Q ->
  view_fits image buf ->
  let w := v_cols image in
  let h := v_rows image in
  let kW := (blur_kernel h w factor).1 in
  let kH := (blur_kernel h w factor).2 in
  (kW mod 2 = 1 /\ kH mod 2 = 1) /\
  (kernel_raw w factor mod 2 = 0 -> kW = kernel_raw w factor - 1) /\
  (kernel_raw w factor mod 2 <> 0 -> kW = kernel_raw w factor) /\
  (kernel_raw h factor mod 2 = 0 -> kH = kernel_raw h factor - 1) /\
  (kernel_raw h factor mod 2 <> 0 -> kH = kernel_raw h factor) /\
  (1 <= kW <-> (factor <= inject_Z (Z.of_nat w))%Q) /\
  (1 <= kH <-> (factor <= inject_Z (Z.of_nat h))%Q) /\
  (~ 1 <= kW -> kW = -1) /\
  (~ 1 <= kH -> kH = -1) /\
  anonymize_face_simple conv buf image factor =
    cv2_GaussianBlur conv (view_data buf image) (kW, kH) /\
  ((w = 1%nat \/ 1 <= kW) /\ (h = 1%nat \/ 1 <= kH) ->
   exists blurred, anonymize_face_simple conv buf image factor = Ok blurred) /\
  (~ ((w = 1%nat \/ 1 <= kW) /\ (h = 1%nat \/ 1 <= kH)) ->
   anonymize_face_simple conv buf image factor = Raise cv2_error).
Proof.
  intros Hfactor Hfits w h kW kH. subst kW kH. unfold blur_kernel. simpl.
  assert (forall d : nat, d = 0%nat -> ~ 1 <= kernel_odd (kernel_raw d factor)) as Hempty.
  { intros d -> Hk. apply kernel_at_least_1 in Hk; [|done].
    apply (Qlt_irrefl 0). by eapply Qlt_le_trans. }
  split; [split; apply kernel_odd_is_odd|].
  do 4 (split; [apply kernel_odd_step|]).
  do 2 (split; [by apply kernel_at_least_1|]).
  do 2 (split; [intros Hsmall; by apply kernel_below_1|]).
  split.
  { unfold anonymize_face_simple.
    destruct (Qeq_bool factor 0) eqn:Hzero; [|done].
    apply Qeq_bool_iff in Hzero. rewrite Hzero in Hfactor.
    by apply Qlt_irrefl in Hfactor. }
  split.
  - intros [HW HH].
    destruct (blur_returns conv buf image factor) as (blurred & Hrun & _);
      try done; [| |by eexists].
    + intros Hrows. destruct HH as [HH|HH]; [fold h in Hrows; lia|].
      by apply (Hempty h).
    + intros Hcols. destruct HW as [HW|HW]; [fold w in Hcols; lia|].
      by apply (Hempty w).
  - intros Hsmall. apply blur_raises; [done..|]. fold w h.
    destruct (decide (h = 0%nat)) as [|Hrows]; [tauto|].
    destruct (decide (w = 0%nat)) as [|Hcols]; [tauto|].
    destruct (decide (w = 1%nat)), (decide (h = 1%nat)),
      (Z.le_gt_cases 1 (kernel_odd (kernel_raw w factor))),
      (Z.le_gt_cases 1 (kernel_odd (kernel_raw h factor))); try tauto; lia.
Qed.

Lemma blur_kernel_odd_but_unchecked_witness :
  (0 < 3)%Q /\
  view_fits (whole portrait) portrait /\
  ((blur_kernel 3 6 3).1 mod 2 = 1 /\ (blur_kernel 3 6 3).2 mod 2 = 1) /\
  (blur_kernel 3 6 3).1 = kernel_raw 6 3 - 1 /\
  (blur_kernel 3 6 3).2 = kernel_raw 3 3 /\
  exists blurred,
    anonymize_face_simple (fun _ _ _ _ _ => gray 0) portrait (whole portrait) 3 =
    Ok blurred.
Proof.
  assert (view_fits (whole portrait) portrait) as Hfits.
  { split; [simpl; lia|]. repeat constructor. }
  split; [reflexivity|]. split; [exact Hfits|].
  pose proof (blur_kernel_odd_but_unchecked (fun _ _ _ _ _ => gray 0)
                portrait (whole portrait) 3 ltac:(reflexivity) Hfits)
    as (Hodd & HWeven & _ & _ & HHodd & _ & _ & _ & _ & _ & Hreturns & _).
  split; [exact Hodd|].
  split; [apply HWeven; reflexivity|].
  split; [apply HHodd; discriminate|].
  apply Hreturns. split; right; vm_compute; discriminate.
Defined.

(** C3 as claimed fails on a region 2 pixels wide and 2 pixels high with
    the default factor: the kernel handed to the convolution is (-1, -1),
    not at least 1, and the call ends in cv2.error raised by
    [cv2.GaussianBlur], not in an error of the function's own. *)
Lemma blur_kernel_of_small_region :
  blur_kernel 2 2 3 = (-1, -1) /\
  ~ 1 <= (blur_kernel 2 2 3).1 /\
  anonymize_face_simple (fun _ _ _ _ _ => gray 0)
    [ [gray 1; gray 2]; [gray 3; gray 4] ]
    (whole [ [gray 1; gray 2]; [gray 3; gray 4] ]) 3 = Raise cv2_error.
Proof.
  split; [reflexivity|]. split; [|reflexivity].
  change (blur_kernel 2 2 3).1 with (-1). lia.
Qed.

(** ** The batch *)

(** C9.  Whenever [lambda_handler] returns, every record of the batch has
    produced exactly one entry: the success list and the failure list of
    the response are the successes and the failures of one list of
    outcomes that follows the records in their order, so N records with M
    failures give N - M success entries and M failure entries, each list
    in processing order; the status code is 200. *)
Theorem batch_result_partitions_records
    (W : world) (fs : gmap string file) (ev : event) (resp : response) :
  lambda_handler W fs ev = Ok resp ->
  exists records os,
    Records ev = Some records /\
    Forall2 outcome_of records os /\
    body_successful_records (response_body resp) = successes os /\
    body_failed_records (response_body resp) = failures os /\
    length (successes os) = (length records - length (failures os))%nat /\
    statusCode resp = 200.
Proof.
  unfold lambda_handler, lambda_handler_state.
  destruct (Records ev) as [records|]; simpl; [|done].
  destruct (process_records _ _ records) as [st|] eqn:Hloop; simpl; [|done].
  intros [= <-].
  apply process_records_ok in Hloop as (os & Hos & Hsucc & Hfail).
  exists records, os. simpl in *. repeat split; try done.
  apply Forall2_length in Hos. pose proof (length_outcomes os). lia.
Qed.

Lemma batch_result_partitions_records_witness :
  lambda_handler (sample_world "pixelate") ∅ mixed_batch = Ok mixed_response /\
  exists records os,
    Records mixed_batch = Some records /\
    Forall2 outcome_of records os /\
    body_successful_records (response_body mixed_response) = successes os /\
    body_failed_records (response_body mixed_response) = failures os /\
    length (successes os) = (length records - length (failures os))%nat /\
    statusCode mixed_response = 200.
Proof.
  split; [vm_compute; reflexivity|].
  apply (batch_result_partitions_records (sample_world "pixelate") ∅).
  vm_compute. reflexivity.
Defined.

(** C5, as the code has it.  An empty list of records gives the response
    with status 200 and two empty lists; an event with no "Records" entry
    makes [event['Records']] raise KeyError, which nothing catches. *)
Theorem empty_batch_returns_missing_batch_raises
    (W : world) (fs : gmap string file) :
  lambda_handler W fs {| Records := Some [] |} =
    Ok {| statusCode := 200;
          response_body :=
            {| body_cv2_version := cv2_version W;
               body_failed_records := [];
               body_successful_records := [] |} |} /\
  lambda_handler W fs {| Records := None |} = Raise (KeyError "Records").
Proof. split; reflexivity. Qed.

(** C5 as claimed fails on the event that has no "Records" entry: the
    handler raises instead of returning an empty response. *)
Lemma missing_records_raises :
  lambda_handler (sample_world "pixelate") ∅ {| Records := None |} =
  Raise (KeyError "Records").
Proof. reflexivity. Qed.

(** C1: the code at the failing input.  The first record is well formed
    and its object is fetched, but the bytes are not an image:
    [cv2.imread] returns None, [image.shape] raises AttributeError, and the
    handler ends there without a response, the second record unprocessed. *)
Theorem decode_failure_aborts_batch :
  lambda_handler (sample_world "pixelate") ∅
    (batch [ mk_record "in" "garbled.jpg" 10; mk_record "in" "fine.jpg" 10 ]) =
  Raise (AttributeError "'NoneType' object has no attribute 'shape'").
Proof. vm_compute. reflexivity. Qed.

(** C2: the code at the failing inputs.  When the detector is denied
    access, and when the upload fails, the iteration leaves through
    [continue] and the working file stays under /tmp; only the successful
    path removes it. *)
Theorem working_file_kept_on_failure :
  files_left (sample_world "pixelate") ∅ (batch [ mk_record "in" "denied.jpg" 10 ]) =
    Some [ ("/tmp/denied.jpg", Some photo) ] /\
  files_left (sample_world "pixelate") ∅ (batch [ mk_record "in" "readonly.jpg" 10 ]) =
    Some [ ("/tmp/readonly.jpg",
            Some [ [gray 0; gray 0; gray 30; gray 40];
                   [gray 0; gray 0; gray 70; gray 80] ]) ] /\
  files_left (sample_world "pixelate") ∅ (batch [ mk_record "in" "fine.jpg" 10 ]) = Some [].
Proof.
  repeat split; vm_compute; reflexivity.
Qed.

(** C4: the code at the failing inputs.  A first record without its S3
    reference makes the KeyError handler read the unbound [bucket]: the
    handler raises UnboundLocalError and the batch stops.  A later record
    without its key is reported under the key of the record before it. *)
Theorem malformed_record_not_reported :
  lambda_handler (sample_world "pixelate") ∅
    (batch [ record_without_s3; mk_record "in" "fine.jpg" 10 ]) =
    Raise (UnboundLocalError "bucket") /\
  lambda_handler (sample_world "pixelate") ∅
    (batch [ mk_record "in" "fine.jpg" 10; record_without_key "other" ]) =
    Ok {| statusCode := 200;
          response_body :=
            {| body_cv2_version := "4.5.1";
               body_failed_records :=
                 [ {| f_bucket := "other"; f_key := "fine.jpg";
                      f_error_message := msg_no_event |} ];
               body_successful_records :=
                 [ {| s_bucket := "in"; s_key := "fine.jpg" |} ] |} |}.
Proof. split; vm_compute; reflexivity. Qed.

(** C10, as the code has it.  A malformed record is reported with the
    values that [bucket] and [key] have when the KeyError handler runs:
    those assigned by the record itself before the missing field was
    reached (the bucket, then the key, then the size), and otherwise those
    left by the most recent earlier record that assigned them.  When one of
    the two has never been assigned, the handler raises UnboundLocalError, a
    NameError, and the batch stops; this is what happens when the first
    record lacks its bucket or its key. *)
Theorem malformed_record_reports_current_variables
    (W : world) (fs : gmap string file) (pre post : list record)
    (r : record) (st : state) :
  is_malformed r = true ->
  process_records W (initial_state fs) pre = Ok st ->
  match foldl parse_locals (None, None) (pre ++ [r]) with
  | (Some b, Some k) =>
      exists st',
        process_records W (initial_state fs) (pre ++ [r]) = Ok st' /\
        appended st st' (Failure (malformed_entry b k))
  | (None, _) =>
      lambda_handler W fs (batch (pre ++ r :: post)) = Raise (UnboundLocalError "bucket")
  | (Some _, None) =>
      lambda_handler W fs (batch (pre ++ r :: post)) = Raise (UnboundLocalError "key")
  end /\
  (pre = [] -> raises (lookup_bucket r) || raises (lookup_key r) = true ->
   exists e, lambda_handler W fs (batch (r :: post)) = Raise e /\ is_NameError e = true).
Proof.
  intros Hmalformed Hpre.
  pose proof (process_records_locals W _ _ _ Hpre) as Hlocals.
  assert (process_records W (initial_state fs) (pre ++ [r]) =
          fail_record (with_locals st (foldl parse_locals (None, None) (pre ++ [r])))
            msg_no_event) as Hlast.
  { rewrite process_records_app, Hpre. simpl.
    rewrite (process_record_malformed W st r Hmalformed), foldl_app, Hlocals. simpl.
    by destruct (fail_record _ _). }
  assert (lambda_handler W fs (batch (pre ++ r :: post)) =
          (do st' <- fail_record
                       (with_locals st (foldl parse_locals (None, None) (pre ++ [r])))
                       msg_no_event;
           do st'' <- process_records W st' post;
           Ok (make_response W st''))) as Hhandler.
  { unfold lambda_handler, lambda_handler_state. simpl.
    rewrite (cons_middle r pre post), app_assoc, process_records_app, Hlast.
    by destruct (fail_record _ _). }
  split.
  - destruct (foldl parse_locals (None, None) (pre ++ [r])) as [[b|] [k|]];
      rewrite ?Hhandler; try done.
    rewrite Hlast. by eexists.
  - intros -> Hnone. simpl in *. rewrite Hhandler. revert Hnone.
    unfold parse_locals.
    destruct (lookup_bucket r), (lookup_key r); simpl; try done; eauto.
Qed.

Lemma malformed_record_reports_current_variables_witness :
  is_malformed (record_without_key "other") = true /\
  process_records (sample_world "pixelate") (initial_state ∅)
    [ mk_record "in" "big.png" 16000000 ] =
    Ok {| bucket := Some "in"; key := Some "big.png";
          failed_records :=
            [ {| f_bucket := "in"; f_key := "big.png"; f_error_message := msg_too_large |} ];
          successful_records := []; tmp := ∅ |} /\
  exists st',
    process_records (sample_world "pixelate") (initial_state ∅)
      [ mk_record "in" "big.png" 16000000; record_without_key "other" ] = Ok st' /\
    failed_records st' =
      [ {| f_bucket := "in"; f_key := "big.png"; f_error_message := msg_too_large |};
        malformed_entry "other" "big.png" ].
Proof.
  split; [reflexivity|]. split; [vm_compute; reflexivity|].
  destruct (malformed_record_reports_current_variables
              (sample_world "pixelate") ∅
              [ mk_record "in" "big.png" 16000000 ] [] (record_without_key "other") _
              eq_refl eq_refl) as [(st' & Hrun & Hfailed & _) _].
  exists st'. split; [exact Hrun | exact Hfailed].
Defined.

(** C10 as claimed fails in both its parts.  A first record that lacks only
    its size is reported as a failure under its own bucket and key, and no
    NameError is raised.  After a record that parsed and a record that has a
    bucket but no key, a record without S3 reference is reported under the
    bucket of the second record, which did not parse, and the key of the
    first. *)
Lemma malformed_entry_not_from_last_parsed_record :
  lambda_handler (sample_world "pixelate") ∅
    (batch [ record_without_size "in" "photo.jpg" ]) =
    Ok {| statusCode := 200;
          response_body :=
            {| body_cv2_version := "4.5.1";
               body_failed_records := [ malformed_entry "in" "photo.jpg" ];
               body_successful_records := [] |} |} /\
  lambda_handler (sample_world "pixelate") ∅
    (batch [ mk_record "in" "big.png" 16000000; record_without_key "other";
             record_without_s3 ]) =
    Ok {| statusCode := 200;
          response_body :=
            {| body_cv2_version := "4.5.1";
               body_failed_records :=
                 [ {| f_bucket := "in"; f_key := "big.png";
                      f_error_message := msg_too_large |};
                   malformed_entry "other" "big.png";
                   malformed_entry "other" "big.png" ];
               body_successful_records := [] |} |}.
Proof. split; vm_compute; reflexivity. Qed.

(** ** Pixelation *)

(** C6: the code at the failing input.  On the 2 x 4 region with 2 blocks,
    the second pixelation changes the result of the first.  The rectangle
    of a block includes its end column and end row, which belong to the
    next blocks, so the mean of a block takes in the colour its neighbour
    has just drawn. *)
Theorem pixelate_twice_differs :
  let once := anonymize_face_pixelate region_2x4 (whole region_2x4) 2 in
  let twice := anonymize_face_pixelate once (whole once) 2 in
  once = [ [gray 0; gray 0; gray 100; gray 100];
           [gray 0; gray 0; gray 50; gray 50] ] /\
  twice = [ [gray 0; gray 0; gray 50; gray 50];
            [gray 0; gray 0; gray 25; gray 25] ] /\
  twice <> once.
Proof. repeat split; [vm_compute; reflexivity..|vm_compute; discriminate]. Qed.

(** C7: the code at the failing input.  A 1 x 1 white region cut in 2
    blocks has the boundaries [0; 0; 1] on both axes.  Its first block has
    zero width and zero height; the mean of its empty region of interest is
    0, and the rectangle from (0, 0) to (0, 0) paints the pixel black.  The
    whole pixelation leaves the region black. *)
Theorem empty_block_paints_black :
  linspace_int 1 2 = [0; 0; 1]%nat /\
  pixelate_cell white_1x1 (whole white_1x1) 0 0 0 0 = [ [gray 0] ] /\
  anonymize_face_pixelate white_1x1 (whole white_1x1) 2 = [ [gray 0] ].
Proof. repeat split; vm_compute; reflexivity. Qed.

Lemma anonymize_leaves_outside_unchanged_witness :
  (anonymize_detected_face (sample_world "pixelate") photo left_half =
     Ok [ [gray 0; gray 0; gray 30; gray 40]; [gray 0; gray 0; gray 70; gray 80] ] /\
   px [ [gray 0; gray 0; gray 30; gray 40]; [gray 0; gray 0; gray 70; gray 80] ] 1 2 =
     px photo 1 2) /\
  (anonymize_detected_face (sample_world "blur") poster left_half =
     Ok (replicate 9 (replicate 9 (gray 0) ++ replicate 9 (gray 90))%list) /\
   px (replicate 9 (replicate 9 (gray 0) ++ replicate 9 (gray 90))%list) 8 9 =
     px poster 8 9).
Proof.
  split.
  - split; [vm_compute; reflexivity|].
    apply (anonymize_leaves_outside_unchanged (sample_world "pixelate") photo _ left_half);
      vm_compute; reflexivity.
  - split; [vm_compute; reflexivity|].
    apply (anonymize_leaves_outside_unchanged (sample_world "blur") poster _ left_half);
      vm_compute; reflexivity.
Defined.


(** * Further properties *)

(** ** File names and the type check *)

Section FileNames.

Implicit Types (s pre name stem ext : string) (sep : ascii).

Lemma occurs_app sep s1 s2 :
  occurs sep (s1 ++ s2) = occurs sep s1 || occurs sep s2.
Proof.
  induction s1 as [|a s1 IH]; simpl; [done|].
  by destruct (Ascii.eqb a sep).
Qed.

Lemma split_last_no_sep sep s : occurs sep s = false -> split_last sep s = s.
Proof.
  destruct s as [|a s]; simpl; [done|].
  destruct (Ascii.eqb a sep); [done|]. by intros ->.
Qed.

(** What follows the last separator. *)
Lemma split_last_app sep pre s :
  occurs sep s = false -> split_last sep (pre ++ String sep s) = s.
Proof.
  intros Hs. induction pre as [|a pre IH]; simpl.
  - by rewrite Hs, Ascii.eqb_refl.
  - by rewrite occurs_app; simpl; rewrite Ascii.eqb_refl, orb_true_r.
Qed.

Lemma split_last_cases sep s :
  occurs sep (split_last sep s) = false /\
  (split_last sep s = s \/ exists pre, s = pre ++ String sep (split_last sep s)).
Proof.
  induction s as [|a s [IHocc IH]]; simpl; [by auto|].
  destruct (occurs sep s) eqn:Hocc.
  - split; [done|]. right. destruct IH as [Heq|[pre Hpre]].
    + by rewrite Heq, Hocc in IHocc.
    + exists (String a pre). exact (f_equal (String a) Hpre).
  - destruct (Ascii.eqb_spec a sep) as [->|Hne].
    + split; [done|]. right. by exists "".
    + split; [|by left]. simpl.
      destruct (Ascii.eqb_spec a sep); [done|]. done.
Qed.

End FileNames.

(** X1.  The type check of line 125 accepts a file name exactly when it
    ends in ".png", ".jpeg" or ".jpg", in lower case: the name must
    contain a dot, since the extension is taken from the local path, which
    starts with "/tmp/". *)
Theorem supported_extension_iff (filename : string) :
  supported_extension ("/tmp/" ++ filename) = true <->
  exists stem ext,
    filename = stem ++ "." ++ ext /\ ext ∈ ["png"; "jpeg"; "jpg"].
Proof.
  unfold supported_extension. split.
  - intros Hin.
    assert (split_last "." ("/tmp/" ++ filename) ∈ ["png"; "jpeg"; "jpg"]) as Hext.
    { apply existsb_exists in Hin as (ext & Hmem & Heq).
      apply String.eqb_eq in Heq. rewrite Heq. by apply list_elem_of_In. }
    destruct (split_last_cases "." ("/tmp/" ++ filename)) as [_ [Hsame|[pre Hpre]]].
    + rewrite Hsame in Hext. exfalso.
      repeat (apply elem_of_cons in Hext as [Hext|Hext]; [discriminate|]).
      by apply elem_of_nil in Hext.
    + destruct pre as [|c1 [|c2 [|c3 [|c4 [|c5 stem]]]]]; simpl in Hpre;
        try discriminate.
      injection Hpre as _ _ _ _ _ Hname.
      exists stem, (split_last "." ("/tmp/" ++ filename)). by split.
  - intros (stem & ext & -> & Hext).
    change ("/tmp/" ++ stem ++ "." ++ ext) with ("/tmp/" ++ (stem ++ String "." ext)).
    assert (occurs "." ext = false) as Hnodot.
    { repeat (apply elem_of_cons in Hext as [->|Hext]; [done|]).
      by apply elem_of_nil in Hext. }
    assert ("/tmp/" ++ (stem ++ String "." ext) = ("/tmp/" ++ stem) ++ String "." ext)
      as -> by done.
    rewrite split_last_app by done.
    apply existsb_exists. exists ext. split; [by apply list_elem_of_In|].
    apply String.eqb_refl.
Qed.

(** ** The steps of one record *)

Section Steps.

Context (W : world).
Implicit Types (st : state) (r : record) (b k quoted path : string).

(** X2.  A record whose size exceeds 15728640 bytes is rejected with the
    size message under its own bucket and key, whatever its file type;
    nothing is fetched, detected or stored, and /tmp is left as it was. *)
Theorem oversized_record_rejected st r b quoted size :
  lookup_bucket r = Ok b -> lookup_key r = Ok quoted -> lookup_size r = Ok size ->
  (15728640 < size)%Z ->
  process_record W st r =
  Ok {| bucket := Some b; key := Some (unquote_plus quoted);
        failed_records :=
          failed_records st ++
          [ {| f_bucket := b; f_key := unquote_plus quoted;
               f_error_message := msg_too_large |} ];
        successful_records := successful_records st;
        tmp := tmp st |}.
Proof.
  intros Hb Hk Hs Hsize. unfold process_record, process_parsed.
  rewrite Hb, Hk, Hs. by destruct (Z.ltb_spec 15728640 size); [|lia].
Qed.

(** X3.  A record within the size limit whose file name does not have one
    of the three extensions is rejected with the file type message under
    its own bucket and key; nothing is fetched, detected or stored, and
    /tmp is left as it was. *)
Theorem unsupported_type_rejected st r b quoted size :
  lookup_bucket r = Ok b -> lookup_key r = Ok quoted -> lookup_size r = Ok size ->
  (size <= 15728640)%Z ->
  supported_extension (local_filename_of (unquote_plus quoted)) = false ->
  process_record W st r =
  Ok {| bucket := Some b; key := Some (unquote_plus quoted);
        failed_records :=
          failed_records st ++
          [ {| f_bucket := b; f_key := unquote_plus quoted;
               f_error_message := msg_file_type |} ];
        successful_records := successful_records st;
        tmp := tmp st |}.
Proof.
  intros Hb Hk Hs Hsize Hext. unfold process_record, process_parsed.
  rewrite Hb, Hk, Hs. destruct (Z.ltb_spec 15728640 size); [lia|].
  unfold local_filename_of in Hext. by rewrite Hext.
Qed.

End Steps.

Lemma oversized_record_rejected_witness :
  process_record (sample_world "pixelate") (initial_state ∅)
    (mk_record "in" "huge.gif" 15728641) =
  Ok {| bucket := Some "in"; key := Some "huge.gif";
        failed_records :=
          [ {| f_bucket := "in"; f_key := "huge.gif"; f_error_message := msg_too_large |} ];
        successful_records := []; tmp := ∅ |}.
Proof.
  apply (oversized_record_rejected (sample_world "pixelate") (initial_state ∅)
           (mk_record "in" "huge.gif" 15728641) "in" "huge.gif" 15728641);
    first [reflexivity | lia].
Defined.

Lemma unsupported_type_rejected_witness :
  process_record (sample_world "pixelate") (initial_state ∅)
    (mk_record "in" "scan.JPG" 15728640) =
  Ok {| bucket := Some "in"; key := Some "scan.JPG";
        failed_records :=
          [ {| f_bucket := "in"; f_key := "scan.JPG"; f_error_message := msg_file_type |} ];
        successful_records := []; tmp := ∅ |}.
Proof.
  apply (unsupported_type_rejected (sample_world "pixelate") (initial_state ∅)
           (mk_record "in" "scan.JPG" 15728640) "in" "scan.JPG" 15728640);
    first [reflexivity | lia].
Defined.

(** ** Success, the files under /tmp and the ways out *)

Section Outcomes.

Context (W : world).
Implicit Types (st : state) (r : record) (b k quoted path : string).


Lemma fail_record_keeps_successful st msg st' :
  fail_record st msg = Ok st' ->
  successful_records st' = successful_records st /\ tmp st' = tmp st.
Proof. by intros (b & k & _ & _ & ->)%fail_record_ok. Qed.




Lemma fail_record_tmp st msg st' :
  fail_record st msg = Ok st' -> tmp st' = tmp st.
Proof. by intros [_ ?]%fail_record_keeps_successful. Qed.

(** A record that has been parsed touches its working file only. *)
Lemma process_parsed_other_files st b k size st' path :
  process_parsed W st b k size = Ok st' ->
  path <> local_filename_of k ->
  tmp st' !! path = tmp st !! path.
Proof.
  unfold process_parsed. fold (local_filename_of k). intros Hrun Hpath.
  assert (forall content,
            <[local_filename_of k := content]> (tmp st) !! path = tmp st !! path)
    as Hput by (intros content; by rewrite lookup_insert_ne).
  revert Hrun.
  destruct (15728640 <? size)%Z; [by intros ->%fail_record_tmp|].
  destruct (negb _); [by intros ->%fail_record_tmp|].
  destruct (download_file W b k) as [content|e].
  2:{ destruct (is_ClientError e); [by intros ->%fail_record_tmp | done]. }
  destruct (mjoin _) as [image|]; [|done].
  destruct (detect_faces W b k) as [FaceDetails|e].
  2:{ destruct e; try done; intros ->%fail_record_tmp; apply Hput. }
  destruct (anonymize_faces W image FaceDetails) as [image'|]; simpl; [|done].
  destruct (upload_file W _ _ k) as [[]|e].
  2:{ destruct e; try done. intros ->%fail_record_tmp. simpl.
      by rewrite lookup_insert_ne, Hput. }
  intros [= <-]. destruct (decide _); simpl.
  - by rewrite lookup_delete_ne, lookup_insert_ne, Hput.
  - by rewrite lookup_insert_ne, Hput.
Qed.

Lemma process_record_other_files st r st' path :
  process_record W st r = Ok st' ->
  (forall quoted, lookup_key r = Ok quoted ->
                  path <> local_filename_of (unquote_plus quoted)) ->
  tmp st' !! path = tmp st !! path.
Proof.
  unfold process_record. intros Hrun Hpath. revert Hrun.
  destruct (lookup_bucket r); [|by intros ->%fail_record_tmp].
  destruct (lookup_key r) as [quoted|]; [|by intros ->%fail_record_tmp].
  destruct (lookup_size r); [|by intros ->%fail_record_tmp].
  intros Hrun. by rewrite (process_parsed_other_files _ _ _ _ _ path Hrun); auto.
Qed.

(** X5.  Over a whole batch, the only files under /tmp that the handler
    creates, overwrites or removes are the working files of its records,
    /tmp/ followed by the last segment of the decoded key; every other file
    is as it was when the handler returns. *)
Theorem other_files_untouched st records st' path :
  process_records W st records = Ok st' ->
  (forall r quoted, r ∈ records -> lookup_key r = Ok quoted ->
                    path <> local_filename_of (unquote_plus quoted)) ->
  tmp st' !! path = tmp st !! path.
Proof.
  revert st. induction records as [|r records IH]; intros st; simpl.
  - by intros [= <-].
  - destruct (process_record W st r) as [st1|] eqn:Hr; simpl; [|done].
    intros Hrest Hpath.
    rewrite (IH st1 Hrest), (process_record_other_files _ _ _ _ Hr).
    + done.
    + intros quoted. apply Hpath. by left.
    + intros r' quoted Hin. apply Hpath. by right.
Qed.

End Outcomes.


Lemma other_files_untouched_witness :
  process_records (sample_world "pixelate")
    (initial_state {[ "/tmp/earlier.png" := Some photo ]})
    [ mk_record "in" "a/first.jpg" 10; mk_record "in" "denied.jpg" 10 ] =
    Ok {| bucket := Some "in"; key := Some "denied.jpg";
          failed_records :=
            [ {| f_bucket := "in"; f_key := "denied.jpg";
                 f_error_message := msg_detect_denied |} ];
          successful_records := [ {| s_bucket := "in"; s_key := "a/first.jpg" |} ];
          tmp := {[ "/tmp/earlier.png" := Some photo;
                    "/tmp/denied.jpg" := Some photo ]} |} /\
  ({[ "/tmp/earlier.png" := Some photo; "/tmp/denied.jpg" := Some photo ]}
     : gmap string file) !! "/tmp/earlier.png" =
  ({[ "/tmp/earlier.png" := Some photo ]} : gmap string file) !! "/tmp/earlier.png".
Proof.
  assert (process_records (sample_world "pixelate")
            (initial_state {[ "/tmp/earlier.png" := Some photo ]})
            [ mk_record "in" "a/first.jpg" 10; mk_record "in" "denied.jpg" 10 ] =
          Ok {| bucket := Some "in"; key := Some "denied.jpg";
                failed_records :=
                  [ {| f_bucket := "in"; f_key := "denied.jpg";
                       f_error_message := msg_detect_denied |} ];
                successful_records := [ {| s_bucket := "in"; s_key := "a/first.jpg" |} ];
                tmp := {[ "/tmp/earlier.png" := Some photo;
                          "/tmp/denied.jpg" := Some photo ]} |}) as Hrun
    by (vm_compute; reflexivity).
  split; [exact Hrun|].
  apply (other_files_untouched (sample_world "pixelate") _ _ _ "/tmp/earlier.png" Hrun).
  intros r quoted Hin Hkey.
  repeat (apply elem_of_cons in Hin as [->|Hin];
          [injection Hkey as <-; vm_compute; discriminate|]).
  by apply elem_of_nil in Hin.
Defined.

(** ** The ways out of the handler *)

Section Aborts.

Context (W : world) (ev : event).
Implicit Types (st : state) (r : record) (b k : string) (e : exn).

Lemma img_cols_row_lengths (img : ndarray) :
  img_cols img = default 0%nat (head (row_lengths img)).
Proof. by destruct img. Qed.

Lemma rectangular_row_lengths (img img' : ndarray) :
  row_lengths img' = row_lengths img -> rectangular img -> rectangular img'.
Proof.
  unfold rectangular. intros Hlen. by rewrite !img_cols_row_lengths, Hlen.
Qed.

Lemma face_region_row_lengths (img img' : ndarray) detected_face :
  row_lengths img' = row_lengths img ->
  face_region img' detected_face = face_region img detected_face.
Proof.
  intros Hlen.
  assert (length img' = length img) as Hrows.
  { apply (f_equal length) in Hlen. unfold row_lengths in Hlen.
    by rewrite !length_map in Hlen. }
  unfold face_region, whole, img_rows.
  by rewrite !img_cols_row_lengths, Hlen, Hrows.
Qed.

(** One face: the shape is kept and the pixels outside the face are kept. *)
Lemma face_step_keeps (image image' : ndarray) detected_face :
  anonymize_detected_face W image detected_face = Ok image' ->
  row_lengths image' = row_lengths image /\
  forall y x,
    in_view (face_region image detected_face) y x = false ->
    px image' y x = px image y x.
Proof.
  unfold anonymize_detected_face.
  destruct (BLUR_TYPE W) as [blur_type|]; simpl; [|done].
  destruct (String.eqb blur_type "pixelate").
  - intros Hassign. split.
    + rewrite (row_lengths_assign_view _ _ _ _ Hassign).
      apply row_lengths_pixelate.
    + intros y x Hout.
      rewrite (px_assign_view_outside _ _ _ _ _ _ Hassign Hout).
      by apply px_pixelate_outside.
  - destruct (anonymize_face_simple _ _ _ _) as [blurred|]; simpl; [|done].
    intros Hassign. split.
    + apply (row_lengths_assign_view _ _ _ _ Hassign).
    + intros y x Hout. apply (px_assign_view_outside _ _ _ _ _ _ Hassign Hout).
Qed.

(** One face raises exactly for a missing BLUR_TYPE or for a face that
    the blur cannot take. *)
Lemma face_step_raises_iff (image : ndarray) detected_face e :
  rectangular image ->
  anonymize_detected_face W image detected_face = Raise e <->
  faces_abort W image [detected_face] e.
Proof.
  intros Hrect. split.
  - intros Hrun. destruct (BLUR_TYPE W) as [blur_type|] eqn:Hblur.
    2:{ unfold anonymize_detected_face in Hrun. rewrite Hblur in Hrun.
        simpl in Hrun. injection Hrun as <-. by apply no_blur_type. }
    destruct (String.eqb_spec blur_type "pixelate") as [->|Hother].
    { destruct (pixelate_face_returns W image detected_face Hrect Hblur) as [img' Hok].
      congruence. }
    assert (Decision (unblurrable (face_region image detected_face))) as [Hbad|Hfine]
      by (unfold unblurrable; apply _).
    + rewrite (unblurrable_face_raises W image detected_face blur_type) in Hrun by done.
      injection Hrun as <-.
      apply (small_face W image _ blur_type detected_face); try done.
      by apply list_elem_of_singleton.
    + destruct (blur_face_returns W image detected_face blur_type) as [img' Hok];
        try done. congruence.
  - intros [Hblur _|blur_type f Hblur Hother Hin Hbad].
    + unfold anonymize_detected_face. by rewrite Hblur.
    + apply list_elem_of_singleton in Hin. subst f.
      by apply (unblurrable_face_raises W image detected_face blur_type).
Qed.

Lemma faces_abort_unique (image image' : ndarray) FaceDetails FaceDetails' e e' :
  faces_abort W image FaceDetails e -> faces_abort W image' FaceDetails' e' -> e = e'.
Proof. destruct 1; destruct 1; congruence. Qed.

Lemma faces_abort_cons (image : ndarray) detected_face rest e :
  faces_abort W image (detected_face :: rest) e <->
  faces_abort W image [detected_face] e \/ faces_abort W image rest e.
Proof.
  split.
  - intros [Hblur _|blur_type f Hblur Hother Hin Hbad].
    + left. by apply no_blur_type.
    + apply elem_of_cons in Hin as [->|Hin].
      * left. apply (small_face W image _ blur_type detected_face); try done.
        by apply list_elem_of_singleton.
      * right. by apply (small_face W image _ blur_type f).
  - intros [[Hblur _|blur_type f Hblur Hother Hin Hbad]
           |[Hblur _|blur_type f Hblur Hother Hin Hbad]].
    + by apply no_blur_type.
    + apply (small_face W image _ blur_type f); try done.
      apply list_elem_of_singleton in Hin. subst f. by left.
    + by apply no_blur_type.
    + apply (small_face W image _ blur_type f); try done. by right.
Qed.

(** The faces are cut from an array of the same shape. *)
Lemma faces_abort_shape (image image' : ndarray) FaceDetails e :
  row_lengths image' = row_lengths image ->
  faces_abort W image' FaceDetails e <-> faces_abort W image FaceDetails e.
Proof.
  intros Hlen.
  split; (intros [Hblur Hsome|blur_type f Hblur Hother Hin Hbad];
    [by apply no_blur_type | apply (small_face W _ _ blur_type f); try done]).
  - by rewrite <- (face_region_row_lengths image image').
  - by rewrite (face_region_row_lengths image image').
Qed.

Lemma faces_raise_iff (image : ndarray) FaceDetails e :
  rectangular image ->
  anonymize_faces W image FaceDetails = Raise e <-> faces_abort W image FaceDetails e.
Proof.
  revert image. induction FaceDetails as [|detected_face rest IH]; intros image Hrect.
  { simpl. split; [done|].
    intros [_ Hsome|blur_type f _ _ Hin _]; [done|]. by apply elem_of_nil in Hin. }
  rewrite faces_abort_cons, <- face_step_raises_iff by done. simpl.
  destruct (anonymize_detected_face W image detected_face) as [image'|e'] eqn:Hface;
    simpl.
  - apply face_step_keeps in Hface as [Hlen _].
    rewrite IH by by apply (rectangular_row_lengths image).
    rewrite (faces_abort_shape image image') by done. split; [by right|].
    by intros [|].
  - split; [by left|]. intros [|Hrest]; [done|].
    apply face_step_raises_iff in Hface; [|done].
    f_equal. by apply (faces_abort_unique image image [detected_face] rest).
Qed.

Lemma fail_record_bound st b k msg :
  bucket st = Some b -> key st = Some k -> exists st', fail_record st msg = Ok st'.
Proof. intros Hb Hk. unfold fail_record. rewrite Hb, Hk. simpl. by eexists. Qed.

Ltac cannot_raise Hb Hk :=
  let st' := fresh "st'" in
  let Hok := fresh "Hok" in
  match goal with
  | |- fail_record ?st ?msg = Raise _ -> _ =>
      destruct (fail_record_bound st _ _ msg Hb Hk) as [st' Hok]; by rewrite Hok
  end.

(** A parsed record raises only when it has passed the two checks, and
    then for one of the causes of [parsed_abort]. *)
Lemma process_parsed_raises st b0 k0 b k size e :
  images_rectangular W ->
  bucket st = Some b0 -> key st = Some k0 ->
  process_parsed W st b k size = Raise e ->
  size <= 15728640 /\
  supported_extension (local_filename_of k) = true /\
  parsed_abort W b k e.
Proof.
  intros Himages Hb Hk. unfold process_parsed, local_filename_of.
  destruct (Z.ltb_spec 15728640 size) as [|Hsize]; [cannot_raise Hb Hk|].
  destruct (supported_extension _) eqn:Hext; simpl; [|cannot_raise Hb Hk].
  intros Hrun. do 2 (split; [done|]). revert Hrun.
  destruct (download_file W b k) as [content|e'] eqn:Hfetch.
  2:{ destruct (is_ClientError e') eqn:Hclient; [cannot_raise Hb Hk|].
      intros [= <-]. by apply fetch_error. }
  simpl. rewrite lookup_insert_eq. simpl.
  destruct content as [image|].
  2:{ intros [= <-]. by apply not_an_image. }
  destruct (detect_faces W b k) as [FaceDetails|e'] eqn:Hdetect.
  2:{ destruct e'; try cannot_raise Hb Hk;
        intros [= <-]; by apply (detector_error W b k image). }
  pose proof (Himages b k image Hfetch) as Hrect.
  destruct (anonymize_faces W image FaceDetails) as [image'|e'] eqn:Hfaces; simpl.
  2:{ intros [= <-]. apply (face_error W b k image FaceDetails); try done.
      by apply faces_raise_iff. }
  destruct (upload_file W _ _ k) as [[]|e'] eqn:Hstore; [done|].
  destruct e'; try cannot_raise Hb Hk;
    intros [= <-]; apply (store_error W b k image FaceDetails); try done;
    intros e' Habort%faces_raise_iff; congruence.
Qed.

Lemma parsed_abort_raises st b k size e :
  images_rectangular W ->
  size <= 15728640 ->
  supported_extension (local_filename_of k) = true ->
  parsed_abort W b k e ->
  process_parsed W st b k size = Raise e.
Proof.
  intros Himages Hsize Hext Habort. unfold process_parsed.
  unfold local_filename_of in *.
  destruct (Z.ltb_spec 15728640 size); [lia|]. rewrite Hext. simpl.
  destruct Habort as [e Hfetch Hclient | Hfetch | image e Hfetch Hdetect He1 He2
                     | image FaceDetails e Hfetch Hdetect Hfaces
                     | image FaceDetails e Hfetch Hdetect Hfaces Hstore He];
    rewrite Hfetch; simpl; rewrite ?lookup_insert_eq; simpl.
  - by rewrite Hclient.
  - done.
  - rewrite Hdetect. by destruct e.
  - rewrite Hdetect. apply faces_raise_iff in Hfaces; [|by apply (Himages b k)].
    by rewrite Hfaces.
  - rewrite Hdetect.
    destruct (anonymize_faces W image FaceDetails) as [image'|e'] eqn:Hrun; simpl.
    + unfold local_filename_of in Hstore. rewrite Hstore. by destruct e.
    + apply faces_raise_iff in Hrun; [|by apply (Himages b k)].
      by destruct (Hfaces e').
Qed.

(** One iteration raises exactly for the causes of [record_abort]. *)
Lemma process_record_raises_iff st r e :
  images_rectangular W ->
  process_record W st r = Raise e <-> record_abort W (locals st) r e.
Proof.
  intros Himages. split.
  - destruct (is_malformed r) eqn:Hmal.
    + rewrite process_record_malformed by done. unfold fail_record. simpl.
      destruct (parse_locals (locals st) r) as [[b|] [k|]] eqn:Hvars; simpl;
        try done; intros [= <-].
      * by apply (unbound_key W _ _ b).
      * apply unbound_bucket; [done|]. by rewrite Hvars.
      * apply unbound_bucket; [done|]. by rewrite Hvars.
    + unfold is_malformed in Hmal. unfold process_record.
      destruct (lookup_bucket r) as [b|] eqn:Hbucket; [|done].
      destruct (lookup_key r) as [quoted|] eqn:Hkey; [|done].
      destruct (lookup_size r) as [size|] eqn:Hsize; [|done].
      intros (Hsmall & Hext & Habort)%(process_parsed_raises _ b (unquote_plus quoted));
        try done.
      by apply (parsed_error W _ _ b quoted size).
  - intros [Hmal Hvars|b Hmal Hvars|b quoted size e' Hbucket Hkey Hsize Hsmall Hext Habort].
    + rewrite process_record_malformed by done. unfold fail_record. simpl.
      by rewrite Hvars.
    + rewrite process_record_malformed by done. unfold fail_record. simpl.
      by rewrite Hvars.
    + unfold process_record. rewrite Hbucket, Hkey, Hsize.
      by apply parsed_abort_raises.
Qed.

(** The loop either runs through or stops at its first record that
    raises. *)
Lemma process_records_cases st rs :
  images_rectangular W ->
  (exists st', process_records W st rs = Ok st' /\ runs_through W (locals st) rs) \/
  (exists pre r post e,
     rs = (pre ++ r :: post)%list /\
     runs_through W (locals st) pre /\
     record_abort W (foldl parse_locals (locals st) pre) r e /\
     process_records W st rs = Raise e).
Proof.
  intros Himages. revert st. induction rs as [|r rs IH]; intros st.
  { left. exists st. split; [done|]. intros pre r post e Hsplit.
    by destruct pre. }
  simpl. destruct (process_record W st r) as [st1|e] eqn:Hr; simpl.
  - assert (forall e, ~ record_abort W (locals st) r e) as Hfine.
    { intros e Habort%process_record_raises_iff; [congruence | done]. }
    assert (forall pre, runs_through W (locals st1) pre ->
                        runs_through W (locals st) (r :: pre)) as Hcons.
    { intros rs1 Hrest pre r1 post e Hsplit.
      destruct pre as [|r0 pre]; simpl in *; simplify_eq; [apply Hfine|].
      apply process_record_ok in Hr as [<- _]. by apply (Hrest pre r1 post). }
    destruct (IH st1) as [(st' & Hrun & Hrest)|(pre & r1 & post & e & -> & Hpre & Hr1 & Hrun)].
    + left. exists st'. split; [done|]. by apply Hcons.
    + right. exists (r :: pre), r1, post, e. split; [done|].
      split; [by apply Hcons|]. split; [|done].
      simpl. by apply process_record_ok in Hr as [<- _].
  - right. exists [], r, rs, e. split; [done|].
    split; [intros pre r1 post e1 Hsplit; by destruct pre|].
    split; [|done]. simpl. by apply process_record_raises_iff.
Qed.

(** X6.  When every fetched image is an array, an exception leaves
    [lambda_handler] in exactly these cases.  The event has no "Records":
    KeyError.  Or the records before some record have all been processed
    without an exception, and on that record: it is malformed and [bucket],
    or else [key], is still unbound after its [try] block
    (UnboundLocalError); or it passes the size and type checks and the fetch
    raises something else than a ClientError, the fetched object is not an
    image (AttributeError), the detector raises something else than its two
    handled errors, BLUR_TYPE is not set and a face was detected
    (KeyError), the blur variant meets a face that is empty or 2 pixels
    high or wide (cv2.error), or the upload raises something else than
    S3UploadFailedError. *)
Theorem handler_raises_exactly_for (fs : gmap string file) e :
  images_rectangular W ->
  lambda_handler W fs ev = Raise e <-> abort_cause W ev e.
Proof.
  intros Himages. unfold lambda_handler, lambda_handler_state. split.
  - destruct (Records ev) as [records|] eqn:Hev; simpl.
    2:{ intros [= <-]. by apply no_records. }
    destruct (process_records_cases (initial_state fs) records Himages)
      as [(st' & -> & _)|(pre & r & post & e' & -> & Hpre & Hr & ->)]; simpl; [done|].
    intros [= <-]. by apply (record_error W ev pre r post).
  - intros [Hev|pre r post e' Hev Hpre Hr]; rewrite Hev; simpl; [done|].
    rewrite process_records_app.
    destruct (process_records_cases (initial_state fs) pre Himages)
      as [(st' & Hrun & _)|(pre1 & r1 & post1 & e1 & Hsplit & _ & Hr1 & _)].
    + rewrite Hrun. simpl.
      apply process_records_locals in Hrun.
      assert (process_record W st' r = Raise e') as ->; [|done].
      apply process_record_raises_iff; [done|]. by rewrite Hrun.
    + by destruct (Hpre pre1 r1 post1 e1).
Qed.

End Aborts.

(** No cause is left without a record to fail on: on an empty batch
    nothing aborts. *)
Example empty_batch_has_no_abort_cause (W : world) (e : exn) :
  ~ abort_cause W (batch []) e.
Proof.
  intros [Hev|pre r post e' Hev _ _]; [done|].
  injection Hev as Hev. by destruct pre.
Qed.

Lemma handler_raises_exactly_for_witness :
  images_rectangular (sample_world "blur") /\
  lambda_handler (sample_world "blur") ∅ (batch [ mk_record "in" "a.jpg" 10 ]) =
    Raise cv2_error /\
  abort_cause (sample_world "blur") (batch [ mk_record "in" "a.jpg" 10 ]) cv2_error.
Proof.
  assert (images_rectangular (sample_world "blur")) as Himages.
  { intros b k image. simpl. destruct (String.eqb k "garbled.jpg"); [done|].
    intros [= <-]. unfold rectangular. simpl. by repeat constructor. }
  split; [exact Himages|]. split; [vm_compute; reflexivity|].
  apply (handler_raises_exactly_for (sample_world "blur")
           (batch [ mk_record "in" "a.jpg" 10 ]) ∅ cv2_error Himages).
  vm_compute. reflexivity.
Defined.

(** ** The rectangle of a face *)

Section Geometry.

Implicit Types (image : ndarray) (detected_face : BoundingBox) (n : nat) (i : Z).

Lemma py_int_scale (q : Q) (size : Z) :
  0 <= Qnum q -> 0 <= size ->
  py_int (q * inject_Z size) = (Qnum q * size) / Zpos (Qden q).
Proof.
  intros Hq Hsize. unfold py_int. simpl. rewrite Pos.mul_1_r.
  apply Z.quot_div_nonneg; lia.
Qed.

Lemma slice_index_inside n i : 0 <= i <= Z.of_nat n -> slice_index n i = Z.to_nat i.
Proof. intros Hi. unfold slice_index. destruct (Z.ltb_spec i 0); lia. Qed.

Lemma slice_index_beyond n i : Z.of_nat n <= i -> slice_index n i = n.
Proof. intros Hi. unfold slice_index. destruct (Z.ltb_spec i 0); lia. Qed.

Lemma slice_index_negative n i :
  - Z.of_nat n <= i < 0 -> slice_index n i = Z.to_nat (Z.of_nat n + i).
Proof. intros Hi. unfold slice_index. destruct (Z.ltb_spec i 0); lia. Qed.

(** The pixels of the view [image[y1:y2, x1:x2]] of line 167. *)
Lemma in_view_face_region image detected_face x1 y1 x2 y2 y x :
  bounding_rect (Z.of_nat (img_cols image)) (Z.of_nat (img_rows image)) detected_face =
    (x1, y1, x2, y2) ->
  in_view (face_region image detected_face) y x =
  (slice_index (img_rows image) y1 <=? y)%nat && (y <? slice_index (img_rows image) y2)%nat &&
  (slice_index (img_cols image) x1 <=? x)%nat && (x <? slice_index (img_cols image) x2)%nat.
Proof.
  intros Hrect. unfold face_region. rewrite Hrect.
  unfold in_view, subview, whole. simpl.
  apply eq_true_iff_eq.
  rewrite !andb_true_iff, !Nat.leb_le, !Nat.ltb_lt. lia.
Qed.

End Geometry.

(** X7.  For a bounding box inside the unit square (non-negative
    fractions, left + width <= 1, top + height <= 1) the rectangle of
    lines 161-164 lies within the image, 0 <= x1 <= x2 <= width and
    0 <= y1 <= y2 <= height, and the view taken at line 167 is exactly
    that rectangle. *)
Theorem box_in_unit_square_within_image
    (image : ndarray) (detected_face : BoundingBox) (x1 y1 x2 y2 : Z) :
  (0 <= Left detected_face)%Q -> (0 <= Width detected_face)%Q ->
  (0 <= Top detected_face)%Q -> (0 <= Height detected_face)%Q ->
  (Left detected_face + Width detected_face <= 1)%Q ->
  (Top detected_face + Height detected_face <= 1)%Q ->
  bounding_rect (Z.of_nat (img_cols image)) (Z.of_nat (img_rows image)) detected_face =
    (x1, y1, x2, y2) ->
  (0 <= x1 <= x2 /\ x2 <= Z.of_nat (img_cols image)) /\
  (0 <= y1 <= y2 /\ y2 <= Z.of_nat (img_rows image)) /\
  forall y x,
    in_view (face_region image detected_face) y x =
    (y1 <=? Z.of_nat y)%Z && (Z.of_nat y <? y2)%Z &&
    (x1 <=? Z.of_nat x)%Z && (Z.of_nat x <? x2)%Z.
Proof.
  destruct detected_face as [[la lb] [ta tb] [wa wb] [ha hb]].
  unfold Qle, Qplus. simpl. intros Hl Hw Ht Hh Hlw Hth.
  assert (forall a b c d size,
            0 <= a -> 0 <= c -> 0 <= size ->
            (a * Z.pos d + c * Z.pos b) * 1 <= 1 * Z.pos (b * d) ->
            0 <= a * size / Z.pos b <= a * size / Z.pos b + c * size / Z.pos d /\
            a * size / Z.pos b + c * size / Z.pos d <= size) as Hsum.
  { intros a b c d size Ha Hc Hsize Hle.
    assert (0 <= a * size / Z.pos b) by (apply Z.div_pos; lia).
    assert (0 <= c * size / Z.pos d) by (apply Z.div_pos; lia).
    pose proof (Z.mul_div_le (a * size) (Z.pos b) ltac:(lia)).
    pose proof (Z.mul_div_le (c * size) (Z.pos d) ltac:(lia)).
    split; [lia|]. rewrite Pos2Z.inj_mul in Hle. nia. }
  unfold bounding_rect. simpl Left; simpl Width; simpl Top; simpl Height.
  rewrite !py_int_scale by (simpl; lia). simpl Qnum; simpl Qden.
  intros [= <- <- <- <-].
  pose proof (Hsum la lb wa wb (Z.of_nat (img_cols image))
                ltac:(lia) ltac:(lia) ltac:(lia) ltac:(lia)) as [Hx Hx2].
  pose proof (Hsum ta tb ha hb (Z.of_nat (img_rows image))
                ltac:(lia) ltac:(lia) ltac:(lia) ltac:(lia)) as [Hy Hy2].
  split; [done|]. split; [done|].
  intros y x. unfold face_region, bounding_rect. simpl Left; simpl Width; simpl Top;
    simpl Height.
  rewrite !py_int_scale by (simpl; lia). simpl Qnum; simpl Qden.
  by apply in_view_subview_whole.
Qed.

Lemma box_in_unit_square_within_image_witness :
  bounding_rect 6 3 left_half = (0, 0, 3, 3) /\
  in_view (face_region portrait left_half) 2 2 = true /\
  in_view (face_region portrait left_half) 2 3 = false.
Proof.
  split; [reflexivity|].
  destruct (box_in_unit_square_within_image portrait left_half 0 0 3 3)
    as (_ & _ & Hview);
    [apply Qle_bool_iff; reflexivity.. | reflexivity |].
  by rewrite !Hview.
Defined.

(** X8.  A rectangle that starts within the image and extends beyond its
    right or bottom edge is clipped by the slice of line 167: the view is
    the part of the rectangle that lies in the image. *)
Theorem face_beyond_edge_is_clipped
    (image : ndarray) (detected_face : BoundingBox) (x1 y1 x2 y2 : Z) :
  bounding_rect (Z.of_nat (img_cols image)) (Z.of_nat (img_rows image)) detected_face =
    (x1, y1, x2, y2) ->
  0 <= x1 <= x2 -> 0 <= y1 <= y2 ->
  forall y x,
    in_view (face_region image detected_face) y x =
    (y1 <=? Z.of_nat y)%Z && (Z.of_nat y <? y2)%Z && (y <? img_rows image)%nat &&
    ((x1 <=? Z.of_nat x)%Z && (Z.of_nat x <? x2)%Z && (x <? img_cols image)%nat).
Proof.
  intros Hrect Hx Hy y x.
  rewrite (in_view_face_region image detected_face x1 y1 x2 y2 y x Hrect).
  unfold slice_index.
  destruct (Z.ltb_spec x1 0), (Z.ltb_spec x2 0), (Z.ltb_spec y1 0),
    (Z.ltb_spec y2 0); try lia.
  apply eq_true_iff_eq.
  rewrite !andb_true_iff, !Nat.leb_le, !Nat.ltb_lt, !Z.leb_le, !Z.ltb_lt.
  lia.
Qed.

Lemma face_beyond_edge_is_clipped_witness :
  bounding_rect 6 3 {| Left := 1 # 2; Top := 0; Width := 1; Height := 2 |} =
    (3, 0, 9, 6) /\
  in_view (face_region portrait
             {| Left := 1 # 2; Top := 0; Width := 1; Height := 2 |}) 2 5 = true.
Proof.
  split; [reflexivity|].
  rewrite (face_beyond_edge_is_clipped portrait
             {| Left := 1 # 2; Top := 0; Width := 1; Height := 2 |} 3 0 9 6
             eq_refl ltac:(lia) ltac:(lia)).
  reflexivity.
Defined.

(** X9.  A face that reaches across the left edge of the image
    (x1 < 0 <= x2) or across its top edge gets an empty view: the negative bound of the slice
    counts from the opposite edge, so [image[y1:y2, x1:x2]] selects no
    pixel. *)
Theorem face_across_edge_selects_nothing
    (image : ndarray) (detected_face : BoundingBox) (x1 y1 x2 y2 : Z) :
  bounding_rect (Z.of_nat (img_cols image)) (Z.of_nat (img_rows image)) detected_face =
    (x1, y1, x2, y2) ->
  (x1 < 0 <= x2 /\ x2 - x1 <= Z.of_nat (img_cols image)) \/
  (y1 < 0 <= y2 /\ y2 - y1 <= Z.of_nat (img_rows image)) ->
  (v_rows (face_region image detected_face) = 0%nat \/
   v_cols (face_region image detected_face) = 0%nat) /\
  forall y x, in_view (face_region image detected_face) y x = false.
Proof.
  intros Hrect Hacross.
  assert (v_rows (face_region image detected_face) = 0%nat \/
          v_cols (face_region image detected_face) = 0%nat) as Hempty.
  { unfold face_region. rewrite Hrect. unfold subview, whole, slice_index. simpl.
    destruct Hacross as [[Hx Hw]|[Hy Hh]]; [right|left].
    - destruct (Z.ltb_spec x1 0), (Z.ltb_spec x2 0); lia.
    - destruct (Z.ltb_spec y1 0), (Z.ltb_spec y2 0); lia. }
  split; [done|]. intros y x. unfold in_view.
  apply not_true_iff_false.
  rewrite !andb_true_iff, !Nat.leb_le, !Nat.ltb_lt. lia.
Qed.

Lemma face_across_edge_selects_nothing_witness :
  bounding_rect 6 3 {| Left := (-1) # 3; Top := 0; Width := 1 # 2; Height := 1 |} =
    (-2, 0, 1, 3) /\
  in_view (face_region portrait
             {| Left := (-1) # 3; Top := 0; Width := 1 # 2; Height := 1 |}) 0 0 = false.
Proof.
  split; [reflexivity|].
  apply (face_across_edge_selects_nothing portrait
           {| Left := (-1) # 3; Top := 0; Width := 1 # 2; Height := 1 |} (-2) 0 1 3
           eq_refl).
  left. change (img_cols portrait) with 6%nat. lia.
Defined.

(** ** The loop over the detected faces *)

Section Faces.

Context (W : world).
Implicit Types (image : ndarray) (FaceDetails : list BoundingBox).

(** X10.  The loop over the faces keeps the shape of the image, and a
    pixel that lies outside the rectangles of all the detected faces is
    left as it was; the rectangles are those computed on the image as it
    was decoded. *)
Theorem faces_leave_outside_unchanged image FaceDetails image' :
  anonymize_faces W image FaceDetails = Ok image' ->
  row_lengths image' = row_lengths image /\
  forall y x,
    (forall detected_face, detected_face ∈ FaceDetails ->
       in_view (face_region image detected_face) y x = false) ->
    px image' y x = px image y x.
Proof.
  revert image. induction FaceDetails as [|detected_face rest IH]; intros image; simpl.
  - by intros [= <-].
  - destruct (anonymize_detected_face W image detected_face) as [image1|] eqn:Hface;
      simpl; [|done].
    intros [Hlen Hrest]%IH. apply face_step_keeps in Hface as [Hlen1 Hface].
    split; [by rewrite Hlen|].
    intros y x Hout. rewrite Hrest, Hface; [done|..].
    + apply Hout. by left.
    + intros f Hf. rewrite (face_region_row_lengths image image1 f Hlen1).
      apply Hout. by right.
Qed.

(** X11.  With the pixelation the loop over the faces of an array never
    raises, whatever the bounding boxes are. *)
Theorem pixelation_of_faces_returns image FaceDetails :
  rectangular image ->
  BLUR_TYPE W = Some "pixelate" ->
  exists image', anonymize_faces W image FaceDetails = Ok image'.
Proof.
  intros Hrect Hblur. revert image Hrect.
  induction FaceDetails as [|detected_face rest IH]; intros image Hrect; simpl.
  - by eexists.
  - destruct (pixelate_face_returns W image detected_face Hrect Hblur)
      as [image1 Hface].
    rewrite Hface. simpl. apply IH.
    apply face_step_keeps in Hface as [Hlen _].
    by apply (rectangular_row_lengths image).
Qed.

(** X12.  With the blur, the loop over the faces of an array raises
    cv2.error exactly when one detected face, wherever it stands in the
    list, is empty or 2 pixels high or wide; nothing catches it in
    [lambda_handler].  When no face is such, and so also with faces 1 pixel
    high or wide, the loop returns. *)
Theorem small_face_aborts_blur image FaceDetails blur_type :
  rectangular image ->
  BLUR_TYPE W = Some blur_type -> blur_type <> "pixelate" ->
  (anonymize_faces W image FaceDetails = Raise cv2_error <->
   exists detected_face,
     detected_face ∈ FaceDetails /\ unblurrable (face_region image detected_face)) /\
  ((forall detected_face,
      detected_face ∈ FaceDetails -> ~ unblurrable (face_region image detected_face)) ->
   exists image', anonymize_faces W image FaceDetails = Ok image').
Proof.
  intros Hrect Hblur Hother.
  assert (forall e, faces_abort W image FaceDetails e ->
            exists detected_face,
              detected_face ∈ FaceDetails /\
              unblurrable (face_region image detected_face)) as Hcause.
  { intros e [Hnone _|blur_type' f _ _ Hin Hbad]; [congruence | by exists f]. }
  split; [split|].
  - intros Hrun%faces_raise_iff; [|done]. by apply (Hcause cv2_error).
  - intros (f & Hin & Hbad). apply faces_raise_iff; [done|].
    by apply (small_face W image FaceDetails blur_type f).
  - intros Hfine.
    destruct (anonymize_faces W image FaceDetails) as [image'|e] eqn:Hrun; [by eexists|].
    apply faces_raise_iff in Hrun; [|done].
    destruct (Hcause e Hrun) as (f & Hin & Hbad). by destruct (Hfine f).
Qed.

End Faces.

Lemma faces_leave_outside_unchanged_witness :
  anonymize_faces (sample_world "pixelate") photo [ left_half ] =
    Ok [ [gray 0; gray 0; gray 30; gray 40]; [gray 0; gray 0; gray 70; gray 80] ] /\
  px [ [gray 0; gray 0; gray 30; gray 40]; [gray 0; gray 0; gray 70; gray 80] ] 0 3 =
    px photo 0 3.
Proof.
  assert (anonymize_faces (sample_world "pixelate") photo [ left_half ] =
          Ok [ [gray 0; gray 0; gray 30; gray 40]; [gray 0; gray 0; gray 70; gray 80] ])
    as Hrun by (vm_compute; reflexivity).
  split; [exact Hrun|].
  apply (faces_leave_outside_unchanged (sample_world "pixelate") photo [ left_half ] _ Hrun).
  intros f Hf. apply list_elem_of_singleton in Hf as ->. reflexivity.
Defined.

Lemma pixelation_of_faces_returns_witness :
  rectangular photo /\
  exists image', anonymize_faces (sample_world "pixelate") photo [ left_half ] = Ok image'.
Proof.
  assert (rectangular photo) as Hrect by (unfold rectangular; simpl; by repeat constructor).
  split; [exact Hrect|].
  apply (pixelation_of_faces_returns (sample_world "pixelate") photo [ left_half ] Hrect).
  reflexivity.
Defined.

Lemma small_face_aborts_blur_witness :
  rectangular photo /\
  unblurrable (face_region photo left_half) /\
  anonymize_faces (sample_world "blur") photo [ left_half ] = Raise cv2_error.
Proof.
  assert (rectangular photo) as Hrect by (unfold rectangular; simpl; by repeat constructor).
  assert (unblurrable (face_region photo left_half)) as Hbad by (right; left; reflexivity).
  split; [exact Hrect|]. split; [exact Hbad|].
  apply (small_face_aborts_blur (sample_world "blur") photo [ left_half ] "blur"
           Hrect eq_refl ltac:(discriminate)).
  exists left_half. split; [by apply list_elem_of_singleton | exact Hbad].
Defined.

(** ** The grid of the pixelation *)

Section Grid.

Implicit Types (stop blocks k j x : nat).

Lemma length_linspace stop blocks : length (linspace_int stop blocks) = S blocks.
Proof. unfold linspace_int. by rewrite length_map, length_seq. Qed.

Lemma nth_linspace stop blocks k :
  (k <= blocks)%nat ->
  nth k (linspace_int stop blocks) 0%nat = (k * stop / blocks)%nat.
Proof.
  intros Hk. unfold linspace_int.
  rewrite nth_lookup, list_lookup_fmap, lookup_seq_lt by lia. done.
Qed.

Lemma linspace_mono stop blocks k j :
  (k <= j)%nat -> (k * stop / blocks <= j * stop / blocks)%nat.
Proof.
  intros Hkj. destruct blocks as [|b]; [done|].
  apply Nat.Div0.div_le_mono. nia.
Qed.

Lemma linspace_last stop blocks :
  (0 < blocks)%nat -> (blocks * stop / blocks)%nat = stop.
Proof. intros Hb. rewrite Nat.mul_comm. apply Nat.div_mul. lia. Qed.

Lemma linspace_bound stop blocks k :
  (0 < blocks)%nat -> (k <= blocks)%nat -> (k * stop / blocks <= stop)%nat.
Proof.
  intros Hb Hk. rewrite <- (linspace_last stop blocks Hb) at 2.
  by apply linspace_mono.
Qed.

(** The crossing of a non-decreasing sequence that starts at or below [x]
    and ends above it. *)
Lemma crossing_exists (f : nat -> nat) n x :
  (f 0 <= x < f n)%nat ->
  exists j, (1 <= j <= n)%nat /\ (f (j - 1) <= x < f j)%nat.
Proof.
  induction n as [|n IH]; intros Hx; [lia|].
  destruct (le_lt_dec (f n) x) as [Hge|Hlt].
  - exists (S n). replace (S n - 1)%nat with n by lia. lia.
  - destruct IH as (j & Hj & Hcross); [lia|]. exists j. lia.
Qed.

End Grid.

(** X13.  For blocks > 0 the boundaries of lines 74-75 cut an axis of
    length [stop] so that every coordinate below [stop] lies in exactly one
    block [boundary (j - 1) <= x < boundary j], 1 <= j <= blocks. *)
Theorem grid_covers_each_pixel_once (stop blocks x : nat) :
  (0 < blocks)%nat -> (x < stop)%nat ->
  exists j,
    ((1 <= j <= blocks)%nat /\
     (nth (j - 1) (linspace_int stop blocks) 0 <= x < nth j (linspace_int stop blocks) 0)%nat) /\
    forall j',
      (1 <= j' <= blocks)%nat ->
      (nth (j' - 1) (linspace_int stop blocks) 0 <= x < nth j' (linspace_int stop blocks) 0)%nat ->
      j' = j.
Proof.
  intros Hblocks Hx.
  destruct (crossing_exists (fun k => (k * stop / blocks)%nat) blocks x)
    as (j & Hj & Hcross).
  { rewrite linspace_last by done. simpl. rewrite Nat.Div0.div_0_l. lia. }
  exists j. split.
  - split; [done|]. by rewrite !nth_linspace by lia.
  - intros j' Hj'. rewrite !nth_linspace by lia. intros Hcross'.
    destruct (lt_eq_lt_dec j' j) as [[Hlt|Heq]|Hgt]; [|done|].
    + pose proof (linspace_mono stop blocks j' (j - 1) ltac:(lia)). lia.
    + pose proof (linspace_mono stop blocks j (j' - 1) ltac:(lia)). lia.
Qed.

Lemma grid_covers_each_pixel_once_witness :
  linspace_int 3 10 = [0; 0; 0; 0; 1; 1; 1; 2; 2; 2; 3]%nat /\
  exists j,
    ((1 <= j <= 10)%nat /\
     (nth (j - 1) (linspace_int 3 10) 0 <= 1 < nth j (linspace_int 3 10) 0)%nat) /\
    forall j',
      (1 <= j' <= 10)%nat ->
      (nth (j' - 1) (linspace_int 3 10) 0 <= 1 < nth j' (linspace_int 3 10) 0)%nat ->
      j' = j.
Proof.
  split; [reflexivity|].
  apply (grid_covers_each_pixel_once 3 10 1); lia.
Defined.

(** ** The blocks of a pixelated region *)

Section Blocks.

Context (v : view) (blocks : nat).
Implicit Types (buf b : ndarray) (i j dy dx y x : nat).

Lemma pixelate_as_rows buf :
  anonymize_face_pixelate buf v blocks = foldl (grid_row v blocks) buf (seq 1 blocks).
Proof.
  unfold anonymize_face_pixelate, grid_row, grid_cell.
  by rewrite !length_linspace, Nat.sub_succ, Nat.sub_0_r.
Qed.

Lemma foldl_untouched {I} (step : ndarray -> I -> ndarray) (l : list I) b y x :
  (forall e b', e ∈ l -> px (step b' e) y x = px b' y x) ->
  px (foldl step b l) y x = px b y x.
Proof.
  revert b. induction l as [|e l IH]; intros b Hstep; simpl; [done|].
  rewrite IH, Hstep; [done | by left |]. intros e' b' He'. apply Hstep. by right.
Qed.

(** A block does not reach the pixels above its start row or left of its
    start column. *)
Lemma cell_untouched i j b dy dx :
  (dy < nth (i - 1) (linspace_int (v_rows v) blocks) 0 \/
   dx < nth (j - 1) (linspace_int (v_cols v) blocks) 0)%nat ->
  px (grid_cell v blocks i b j) (v_top v + dy) (v_left v + dx) =
  px b (v_top v + dy) (v_left v + dx).
Proof.
  intros Hbefore. unfold grid_cell. rewrite px_pixelate_cell.
  destruct (_ && _ && (_ && _)) eqn:Hin; [|done].
  rewrite !andb_true_iff, !Nat.leb_le, !Nat.ltb_lt in Hin. lia.
Qed.

(** A block paints its own pixels with one colour. *)
Lemma cell_painted i j b dy dx p :
  (1 <= i <= blocks)%nat -> (1 <= j <= blocks)%nat ->
  in_block v blocks i j dy dx ->
  px b (v_top v + dy) (v_left v + dx) = Some p ->
  px (grid_cell v blocks i b j) (v_top v + dy) (v_left v + dx) =
  Some (block_color b v
          (nth (j - 1) (linspace_int (v_cols v) blocks) 0%nat)
          (nth (i - 1) (linspace_int (v_rows v) blocks) 0%nat)
          (nth j (linspace_int (v_cols v) blocks) 0%nat)
          (nth i (linspace_int (v_rows v) blocks) 0%nat)).
Proof.
  intros Hi Hj [Hdy Hdx] Hp. unfold grid_cell. rewrite px_pixelate_cell, Hp.
  destruct (_ && _ && (_ && _)) eqn:Hin; [done|].
  rewrite <- not_true_iff_false, !andb_true_iff, !Nat.leb_le, !Nat.ltb_lt in Hin.
  assert (nth i (linspace_int (v_rows v) blocks) 0 <= v_rows v)%nat.
  { rewrite nth_linspace by lia. apply linspace_bound; lia. }
  assert (nth j (linspace_int (v_cols v) blocks) 0 <= v_cols v)%nat.
  { rewrite nth_linspace by lia. apply linspace_bound; lia. }
  lia.
Qed.

(** No block removes a pixel. *)
Lemma cell_keeps_pixel i j b y x :
  is_Some (px b y x) -> is_Some (px (grid_cell v blocks i b j) y x).
Proof.
  intros [p Hp]. unfold grid_cell. rewrite px_pixelate_cell, Hp.
  by destruct (_ && _ && (_ && _)).
Qed.

Lemma row_keeps_pixel i b y x :
  is_Some (px b y x) -> is_Some (px (grid_row v blocks b i) y x).
Proof.
  intros Hp. unfold grid_row.
  apply (foldl_preserves (fun b => is_Some (px b y x))); [done|].
  intros b' j. apply cell_keeps_pixel.
Qed.

Lemma seq_split_at n k :
  (1 <= k <= n)%nat -> seq 1 n = (seq 1 (k - 1) ++ k :: seq (S k) (n - k))%list.
Proof.
  intros Hk.
  assert (seq 1 n = seq 1 ((k - 1) + S (n - k))) as -> by (f_equal; lia).
  rewrite seq_app. replace (1 + (k - 1))%nat with k by lia. done.
Qed.

(** After the row of a block, the pixels of the block have one colour. *)
Lemma row_flattens_block i j b dy1 dx1 dy2 dx2 :
  (1 <= i <= blocks)%nat -> (1 <= j <= blocks)%nat ->
  in_block v blocks i j dy1 dx1 -> in_block v blocks i j dy2 dx2 ->
  is_Some (px b (v_top v + dy1) (v_left v + dx1)) ->
  is_Some (px b (v_top v + dy2) (v_left v + dx2)) ->
  exists c,
    px (grid_row v blocks b i) (v_top v + dy1) (v_left v + dx1) = Some c /\
    px (grid_row v blocks b i) (v_top v + dy2) (v_left v + dx2) = Some c.
Proof.
  intros Hi Hj Hin1 Hin2 Hp1 Hp2. unfold grid_row.
  rewrite (seq_split_at blocks j Hj), foldl_app. simpl.
  set (b1 := foldl (grid_cell v blocks i) b (seq 1 (j - 1))).
  assert (forall y x, is_Some (px b y x) -> is_Some (px b1 y x)) as Hkeep.
  { intros y x Hp. unfold b1.
    apply (foldl_preserves (fun b => is_Some (px b y x))); [done|].
    intros b' j'. apply cell_keeps_pixel. }
  destruct (Hkeep _ _ Hp1) as [p1 Hb1], (Hkeep _ _ Hp2) as [p2 Hb2].
  eexists. split.
  - rewrite foldl_untouched; [by apply (cell_painted i j b1 dy1 dx1 p1)|].
    intros j' b' Hj'%elem_of_seq. apply cell_untouched. right.
    rewrite nth_linspace by lia. destruct Hin1 as [_ Hdx].
    rewrite (nth_linspace _ _ j) in Hdx by lia.
    pose proof (linspace_mono (v_cols v) blocks j (j' - 1) ltac:(lia)). lia.
  - rewrite foldl_untouched; [by apply (cell_painted i j b1 dy2 dx2 p2)|].
    intros j' b' Hj'%elem_of_seq. apply cell_untouched. right.
    rewrite nth_linspace by lia. destruct Hin2 as [_ Hdx].
    rewrite (nth_linspace _ _ j) in Hdx by lia.
    pose proof (linspace_mono (v_cols v) blocks j (j' - 1) ltac:(lia)). lia.
Qed.

(** A later row of blocks does not reach the pixels of an earlier one. *)
Lemma later_row_untouched i i' b dy dx j :
  (i < i' <= blocks)%nat -> (1 <= i)%nat ->
  in_block v blocks i j dy dx ->
  px (grid_row v blocks b i') (v_top v + dy) (v_left v + dx) =
  px b (v_top v + dy) (v_left v + dx).
Proof.
  intros Hi' Hi [Hdy _]. unfold grid_row. apply foldl_untouched.
  intros j' b' _. apply cell_untouched. left.
  rewrite nth_linspace by lia. rewrite (nth_linspace _ _ i) in Hdy by lia.
  pose proof (linspace_mono (v_rows v) blocks i (i' - 1) ltac:(lia)). lia.
Qed.

End Blocks.

(** X14.  After [anonymize_face_pixelate], the pixels of one block of the
    grid, rows [ySteps[i-1], ySteps[i]) and columns [xSteps[j-1], xSteps[j])
    of the array, all have the same colour: the region is made of flat
    tiles. *)
Theorem pixelated_block_is_flat
    (buf : ndarray) (image : view) (blocks i j dy1 dx1 dy2 dx2 : nat) :
  (1 <= i <= blocks)%nat -> (1 <= j <= blocks)%nat ->
  in_block image blocks i j dy1 dx1 -> in_block image blocks i j dy2 dx2 ->
  is_Some (px buf (v_top image + dy1) (v_left image + dx1)) ->
  is_Some (px buf (v_top image + dy2) (v_left image + dx2)) ->
  exists c,
    px (anonymize_face_pixelate buf image blocks)
       (v_top image + dy1) (v_left image + dx1) = Some c /\
    px (anonymize_face_pixelate buf image blocks)
       (v_top image + dy2) (v_left image + dx2) = Some c.
Proof.
  intros Hi Hj Hin1 Hin2 Hp1 Hp2.
  rewrite pixelate_as_rows, (seq_split_at blocks i Hi), foldl_app. simpl.
  set (b0 := foldl (grid_row image blocks) buf (seq 1 (i - 1))).
  assert (forall y x, is_Some (px buf y x) -> is_Some (px b0 y x)) as Hkeep.
  { intros y x Hp. unfold b0.
    apply (foldl_preserves (fun b => is_Some (px b y x))); [done|].
    intros b' i'. apply row_keeps_pixel. }
  destruct (row_flattens_block image blocks i j b0 dy1 dx1 dy2 dx2 Hi Hj Hin1 Hin2
              (Hkeep _ _ Hp1) (Hkeep _ _ Hp2)) as (c & Hc1 & Hc2).
  exists c. split.
  - rewrite foldl_untouched; [done|].
    intros i' b' Hi'%elem_of_seq.
    apply (later_row_untouched image blocks i i' b' dy1 dx1 j); [lia | lia | done].
  - rewrite foldl_untouched; [done|].
    intros i' b' Hi'%elem_of_seq.
    apply (later_row_untouched image blocks i i' b' dy2 dx2 j); [lia | lia | done].
Qed.

Lemma pixelated_block_is_flat_witness :
  in_block (whole region_2x4) 2 1 2 0 2 /\ in_block (whole region_2x4) 2 1 2 0 3 /\
  exists c,
    px (anonymize_face_pixelate region_2x4 (whole region_2x4) 2) 0 2 = Some c /\
    px (anonymize_face_pixelate region_2x4 (whole region_2x4) 2) 0 3 = Some c.
Proof.
  assert (in_block (whole region_2x4) 2 1 2 0 2) as Hin1 by (cbv; lia).
  assert (in_block (whole region_2x4) 2 1 2 0 3) as Hin2 by (cbv; lia).
  split; [exact Hin1|]. split; [exact Hin2|].
  apply (pixelated_block_is_flat region_2x4 (whole region_2x4) 2 1 2 0 2 0 3);
    [lia | lia | exact Hin1 | exact Hin2 | by eexists | by eexists].
Defined.

(** ** The range of the channels *)

Section Channels.

Implicit Types (buf : ndarray) (v : view) (ps : list pixel) (p : pixel).

(** The pixels read through a view are pixels of the buffer. *)
Lemma view_data_pixels buf v p :
  p ∈ concat (view_data buf v) -> exists y x, px buf y x = Some p.
Proof.
  unfold view_data, slice.
  intros (row' & Hrow' & Hp)%list_elem_of_In%in_concat.
  apply list_elem_of_In in Hrow', Hp.
  apply list_elem_of_fmap in Hrow' as (row & -> & Hrow).
  apply subseteq_take, subseteq_drop in Hrow.
  apply subseteq_take, subseteq_drop in Hp.
  apply list_elem_of_lookup in Hrow as [y Hy].
  apply list_elem_of_lookup in Hp as [x Hx].
  exists y, x. unfold px. by rewrite Hy.
Qed.

Lemma chan_sum_bounds (f : pixel -> Z) ps :
  Forall (fun p => 0 <= f p <= 255) ps ->
  0 <= chan_sum f ps <= 255 * Z.of_nat (length ps).
Proof.
  induction 1 as [|p ps Hp _ IH]; simpl; [lia|].
  unfold chan_sum in *. simpl. lia.
Qed.

(** The truncated mean of values between 0 and 255 lies between 0 and 255. *)
Lemma chan_mean_bounds (f : pixel -> Z) ps :
  Forall (fun p => 0 <= f p <= 255) ps ->
  0 <= py_int (chan_mean f ps) <= 255.
Proof.
  intros Hps. unfold chan_mean. destruct ps as [|p0 ps0] eqn:Heq; [done|].
  rewrite <- Heq in *. unfold py_int. simpl Qnum; simpl Qden.
  pose proof (chan_sum_bounds f ps Hps) as Hsum.
  assert (Z.pos (Pos.of_nat (length ps)) = Z.of_nat (length ps)) as ->.
  { rewrite Heq. simpl length. lia. }
  assert (0 < Z.of_nat (length ps)) by (rewrite Heq; simpl length; lia).
  rewrite Z.quot_div_nonneg by lia.
  split; [apply Z.div_pos; lia|].
  apply Z.div_le_upper_bound; lia.
Qed.

Lemma block_color_uint8 buf v sx sy ex ey :
  uint8_array buf -> uint8_pixel (block_color buf v sx sy ex ey).
Proof.
  intros Hbuf. unfold block_color, cv2_mean.
  set (ps := concat (view_data buf _)).
  assert (Forall uint8_pixel ps) as Hps.
  { apply Forall_forall. intros p (y & x & Hp)%view_data_pixels. by apply (Hbuf y x). }
  unfold uint8_pixel. simpl.
  repeat split; apply chan_mean_bounds;
    (eapply Forall_impl; [exact Hps|]); intros p (H1 & H2 & H3); lia.
Qed.

End Channels.

(** X15.  The pixelation keeps the channels in range: when every channel
    of the array is between 0 and 255, so is every channel of the result
    (the colour of a block is the truncated mean of such values, or 0). *)
Theorem pixelation_keeps_uint8 (buf : ndarray) (image : view) (blocks : nat) :
  uint8_array buf -> uint8_array (anonymize_face_pixelate buf image blocks).
Proof.
  intros Hbuf. unfold anonymize_face_pixelate.
  apply (foldl_preserves uint8_array); [done|]. intros b i Hb.
  apply (foldl_preserves uint8_array); [done|]. intros b' j Hb'.
  intros y x p. rewrite px_pixelate_cell.
  destruct (_ && _ && (_ && _)); [|by apply Hb'].
  destruct (px b' y x); simpl; [|done].
  intros [= <-]. by apply block_color_uint8.
Qed.

Lemma pixelation_keeps_uint8_witness :
  uint8_array region_2x4 /\
  uint8_array (anonymize_face_pixelate region_2x4 (whole region_2x4) 2).
Proof.
  assert (uint8_array region_2x4) as Hbuf.
  { intros y x p.
    destruct y as [|[|y]]; [| |done];
      (destruct x as [|[|[|[|x]]]]; [| | | |done]);
      intros [= <-]; unfold uint8_pixel; simpl; lia. }
  split; [exact Hbuf|].
  exact (pixelation_keeps_uint8 region_2x4 (whole region_2x4) 2 Hbuf).
Defined.

(** ** The files found under /tmp *)

Section LeftoverFiles.

Context (W : world).
Implicit Types (st : state) (r : record) (b k : string).

Lemma same_outcome_fail st1 st2 msg :
  without_files st1 = without_files st2 ->
  same_outcome (fail_record st1 msg) (fail_record st2 msg).
Proof.
  unfold without_files, fail_record. intros [= Hb Hk Hf Hs]. rewrite Hb, Hk, Hf, Hs.
  destruct (bucket st2); simpl; [|done]. by destruct (key st2).
Qed.

(** The working file is written before it is read: what was under /tmp
    does not show in the outcome of a record. *)
Lemma same_outcome_parsed st1 st2 b k size :
  without_files st1 = without_files st2 ->
  same_outcome (process_parsed W st1 b k size) (process_parsed W st2 b k size).
Proof.
  intros Hsame. unfold process_parsed.
  destruct (15728640 <? size)%Z; [by apply same_outcome_fail|].
  destruct (negb _); [by apply same_outcome_fail|].
  destruct (download_file W b k) as [content|e].
  2:{ destruct (is_ClientError e); [by apply same_outcome_fail | done]. }
  simpl. rewrite !lookup_insert_eq. simpl.
  destruct content as [image|]; [|done].
  destruct (detect_faces W b k) as [FaceDetails|e].
  2:{ destruct e; try done; by apply same_outcome_fail. }
  destruct (anonymize_faces W image FaceDetails) as [image'|]; simpl; [|done].
  destruct (upload_file W _ _ k) as [[]|e].
  2:{ destruct e; try done; by apply same_outcome_fail. }
  rewrite !lookup_insert_eq.
  destruct (decide _) as [_|Hnone]; [|by destruct Hnone].
  revert Hsame. unfold without_files, add_successful, set_tmp. simpl.
  intros [= Hb Hk Hf Hs]. by rewrite Hb, Hk, Hf, Hs.
Qed.

Lemma same_outcome_record st1 st2 r :
  without_files st1 = without_files st2 ->
  same_outcome (process_record W st1 r) (process_record W st2 r).
Proof.
  intros Hsame. unfold process_record.
  destruct (lookup_bucket r) as [b|]; [|by apply same_outcome_fail].
  assert (without_files (set_bucket st1 b) = without_files (set_bucket st2 b)) as Hb.
  { revert Hsame. unfold without_files, set_bucket. simpl.
    intros [= _ Hk Hf Hs]. by rewrite Hk, Hf, Hs. }
  destruct (lookup_key r) as [quoted|]; [|by apply same_outcome_fail].
  assert (without_files (set_key (set_bucket st1 b) (unquote_plus quoted)) =
          without_files (set_key (set_bucket st2 b) (unquote_plus quoted))) as Hk.
  { revert Hsame. unfold without_files, set_key, set_bucket. simpl.
    intros [= _ _ Hf Hs]. by rewrite Hf, Hs. }
  destruct (lookup_size r) as [size|]; [|by apply same_outcome_fail].
  by apply same_outcome_parsed.
Qed.

Lemma same_outcome_records st1 st2 records :
  without_files st1 = without_files st2 ->
  same_outcome (process_records W st1 records) (process_records W st2 records).
Proof.
  revert st1 st2. induction records as [|r records IH]; intros st1 st2 Hsame; simpl.
  - done.
  - pose proof (same_outcome_record st1 st2 r Hsame) as Hr.
    destruct (process_record W st1 r) as [st1'|e1],
             (process_record W st2 r) as [st2'|e2]; simpl in *; try done.
    by apply IH.
Qed.

(** X16.  What [lambda_handler] returns or raises does not depend on the
    files that are under /tmp when it starts: a working file is always
    written by the fetch before it is read, so the files left behind by an
    earlier call never show in a later response. *)
Theorem response_independent_of_leftover_files (fs fs' : gmap string file) (ev : event) :
  lambda_handler W fs ev = lambda_handler W fs' ev.
Proof.
  unfold lambda_handler, lambda_handler_state.
  destruct (Records ev) as [records|]; simpl; [|done].
  pose proof (same_outcome_records (initial_state fs) (initial_state fs') records eq_refl)
    as Hsame.
  destruct (process_records W (initial_state fs) records) as [st1|e1],
           (process_records W (initial_state fs') records) as [st2|e2];
    simpl in *; try done; [|by subst].
  unfold make_response. revert Hsame. unfold without_files.
  intros [= _ _ Hf Hs]. by rewrite Hf, Hs.
Qed.

End LeftoverFiles.

(** ** A failed fetch *)

(** X17.  When the fetch of a record that passed the size and type checks
    raises a ClientError (of any subclass), the record is reported with the
    GetObject message under its own bucket and key; the detector is not
    called and nothing is written under /tmp. *)
Theorem failed_fetch_reported
    (W : world) (st : state) (r : record) (b quoted : string) (size : Z) (e : exn) :
  lookup_bucket r = Ok b -> lookup_key r = Ok quoted -> lookup_size r = Ok size ->
  (size <= 15728640)%Z ->
  supported_extension (local_filename_of (unquote_plus quoted)) = true ->
  download_file W b (unquote_plus quoted) = Raise e ->
  is_ClientError e = true ->
  process_record W st r =
  Ok {| bucket := Some b; key := Some (unquote_plus quoted);
        failed_records :=
          failed_records st ++
          [ {| f_bucket := b; f_key := unquote_plus quoted;
               f_error_message := msg_get_object |} ];
        successful_records := successful_records st;
        tmp := tmp st |}.
Proof.
  intros Hb Hk Hs Hsize Hext Hfetch Hclient. unfold process_record, process_parsed.
  rewrite Hb, Hk, Hs. destruct (Z.ltb_spec 15728640 size); [lia|].
  unfold local_filename_of in Hext. by rewrite Hext, Hfetch, Hclient.
Qed.

Lemma failed_fetch_reported_witness :
  let W := {| output_bucket := "out"; BLUR_TYPE := None; cv2_version := "4.5.1";
              conv := fun _ _ _ _ _ => gray 0;
              download_file := fun _ _ => Raise AccessDeniedException;
              detect_faces := fun _ _ => Ok [];
              upload_file := fun _ _ _ => Ok tt |} in
  process_record W (initial_state ∅) (mk_record "in" "a+b.png" 10) =
  Ok {| bucket := Some "in"; key := Some "a b.png";
        failed_records :=
          [ {| f_bucket := "in"; f_key := "a b.png"; f_error_message := msg_get_object |} ];
        successful_records := []; tmp := ∅ |}.
Proof.
  intros W.
  apply (failed_fetch_reported W (initial_state ∅) (mk_record "in" "a+b.png" 10)
           "in" "a+b.png" 10 AccessDeniedException);
    first [reflexivity | lia].
Defined.
